(** * Local-first data repository: CRUD, push/pull synchronisation, manager

    A shallow embedding of [app/composables/useDataRepository.ts]:
    [BaseRepository] (local operations, remote operations, [syncWithRemote]
    and its helpers) and [DataManager] ([setRemoteConfig], [syncAll]).

    Conventions of the embedding.
    - A JavaScript object (an entity, a partial entity, a row returned by the
      store, a JSON body) is a finite map from property names to values.
    - A timestamp string in the format of [Date.prototype.toISOString] is
      represented by the instant it denotes, in milliseconds since the epoch
      ([VTime]); on such strings SQLite's text order and [Date] parsing both
      agree with the order of instants.  [VStr] is any other text; such a
      text may still denote an instant for [Date] (a timestamp without
      milliseconds, or with an offset), and what [Date.parse] makes of it
      is left to the runtime, the collaborator [dateParse].
    - [await] is sequencing: the code is single threaded and every operation
      runs to completion before the next one starts.
    - The collaborators (clock, identifier source, local store, remote
      service) are oracles indexed by a counter of interactions, so that
      every run of the program is a run of the model for some oracle.
    - What the remote service answers is not bound by the types the code
      declares for it: the body of a listing is an array whose elements
      are objects or null, or no array at all.
    - A SQL statement is modelled by its effect on the rows of the table;
      rows carry no schema, and a statement the store refuses (a constraint,
      a lock) is a fault of the store oracle.
    [getRemote], [deleteRemote] and [getAuthHeaders] take no part in the
    properties below and are left out, as are [updatePreferences] (values
    that are objects) and [getUpcoming] (calendar arithmetic in local
    time). *)

From stdpp Require Import gmap strings list fin_maps sorting.
From Stdlib Require Import ZArith Lia.

Local Open Scope string_scope.
Local Open Scope Z_scope.

(** ** Values and objects *)

Inductive value : Type :=
| VNull                 (* null, and an undefined property value *)
| VBool (b : bool)
| VNum (n : Z)
| VStr (s : string)
| VTime (ms : Z).       (* an ISO-8601 timestamp string, as its instant *)

#[global] Instance value_eq_dec : EqDecision value.
Proof. solve_decision. Defined.

Abbreviation Row := (gmap string value).

(** [o.k] where a missing property and [null] are not told apart. *)
Definition field (k : string) (o : Row) : value := default VNull (o !! k).

(** JavaScript truthiness of [o.k]. *)
Definition truthy (v : option value) : bool :=
  match v with
  | None | Some VNull => false
  | Some (VBool b) => b
  | Some (VNum n) => negb (n =? 0)
  | Some (VStr s) => negb (String.eqb s "")
  | Some (VTime _) => true
  end.

(** [Object.keys(o)]. *)
Definition objectKeys (o : Row) : list string := (map_to_list o).*1.

(** [new Date(o.k).getTime()]; [None] is NaN.  [parse] is [Date.parse] on
    the texts that are not in the format of [toISOString]. *)
Definition getTime (parse : string -> option Z) (v : option value) : option Z :=
  match v with
  | None => None
  | Some VNull => Some 0
  | Some (VBool b) => Some (Z.b2z b)
  | Some (VNum n) => if Z.abs n <=? 8640000000000000 then Some n else None
  | Some (VStr s) => parse s
  | Some (VTime ms) => Some ms
  end.

(** [a > b] and [a !== b] on numbers that may be NaN. *)
Definition numGt (a b : option Z) : bool :=
  match a, b with
  | Some x, Some y => y <? x
  | _, _ => false
  end.

Definition numNeq (a b : option Z) : bool :=
  match a, b with
  | Some x, Some y => negb (x =? y)
  | _, _ => true
  end.

(** ** The local store

    A table is the list of its rows in insertion order; a column that a row
    does not bind is NULL.  The schema is owned elsewhere: no constraint is
    modelled here, a statement the store rejects is a fault of the store
    oracle. *)

(** What the store keeps of a bound parameter: SQLite has no boolean. *)
Definition sqlValue (v : value) : value :=
  match v with
  | VBool b => VNum (Z.b2z b)
  | _ => v
  end.

(** [c IS NULL]. *)
Definition sqlIsNull (v : option value) : bool :=
  match v with
  | None | Some VNull => true
  | _ => false
  end.

(** [c = $n]: never true on NULL. *)
Definition sqlEq (v : option value) (p : value) : bool :=
  match v with
  | None | Some VNull => false
  | Some a => match sqlValue p with
              | VNull => false
              | b => bool_decide (sqlValue a = b)
              end
  end.

(** [a > b]: never true on NULL, numbers sort before text, timestamps by
    instant, other text by characters.  The order between a timestamp and
    other text is outside the model and taken as not greater. *)
Definition sqlGt (a b : option value) : bool :=
  match a, b with
  | None, _ | _, None | Some VNull, _ | _, Some VNull => false
  | Some x, Some y =>
      match sqlValue x, sqlValue y with
      | VNum m, VNum n => n <? m
      | VNum _, _ => false
      | _, VNum _ => true
      | VTime m, VTime n => n <? m
      | VStr s, VStr t => String.ltb t s
      | _, _ => false
      end
  end.

(** [(is_deleted IS NULL OR is_deleted = 0)]. *)
Definition notDeleted (r : Row) : bool :=
  sqlIsNull (r !! "is_deleted") || sqlEq (r !! "is_deleted") (VNum 0).

(** The WHERE clauses of the repository's statements:
    [id = $1 AND (is_deleted IS NULL OR is_deleted = 0)],
    [last_sync_at IS NULL OR updated_at > last_sync_at],
    [remote_id = $1]. *)
Definition whereLive (id : value) (r : Row) : bool :=
  sqlEq (r !! "id") id && notDeleted r.

Definition whereDirty (r : Row) : bool :=
  sqlIsNull (r !! "last_sync_at")
  || sqlGt (r !! "updated_at") (r !! "last_sync_at").

Definition whereRemoteId (remoteId : value) (r : Row) : bool :=
  sqlEq (r !! "remote_id") remoteId.

(** [SET k1 = v1, k2 = v2, ...] on one row; of two assignments to one column
    the rightmost is the one that counts. *)
Definition assign (r : Row) (sets : list (string * value)) : Row :=
  foldl (fun acc kv => <[kv.1 := sqlValue kv.2]> acc) r sets.

(** ** Remote configuration, results *)

Record Features := {
  contentSync : bool;
  dynamicFeed : bool;
  notifications : bool;
}.

Record RemoteConfig := {
  enabled : bool;
  baseUrl : string;
  apiKey : option string;
  syncInterval : Z;
  features : Features;
}.

Inductive exn : Type :=
| NotFound (id : value)                 (* Record with id ... not found *)
| RemoteDisabled                        (* Remote service not enabled *)
| RemoteSaveFailed (statusText : string)
| RemoteUpdateFailed (statusText : string)
| StoreSyntaxError                      (* the store cannot parse the statement *)
| Thrown (msg : string).                (* raised by the store, the transport
                                           or the runtime *)

Inductive ConflictType := Update | Delete.

Record Conflict := {
  c_id : value;
  c_table : string;
  local_data : Row;
  remote_data : Row;
  conflict_type : ConflictType;
}.

(** An entry of [SyncResult.errors], by the template that builds it. *)
Inductive SyncError : Type :=
| NotEnabled                                   (* Remote sync not enabled *)
| ItemFailed (id : value) (cause : exn)        (* Failed to sync item id: cause *)
| MergeFailed (id : value) (cause : exn)       (* Failed to merge remote item id: cause *)
| PassFailed (cause : exn).                    (* Sync failed: cause *)

Record SyncResult := {
  success : bool;
  conflicts : list Conflict;
  updated : nat;
  created : nat;
  deleted : nat;
  errors : list SyncError;
}.

(** ** Collaborators *)

Inductive response (B : Type) : Type :=
| Unreachable (msg : string)     (* fetch or the body parser throws *)
| Rejected (statusText : string) (* a response that is not ok *)
| Ok (body : B).

Arguments Unreachable {B} msg.
Arguments Rejected {B} statusText.
Arguments Ok {B} body.

(** The parsed body of a listing, as the pull loop meets it: an array whose
    elements are objects or null, or a value that is no array (an envelope
    object, a number, null), truthy or not. *)
Inductive Listing : Type :=
| Elements (items : list (option Row))
| NoArray (isTruthy : bool).

Record Env := {
  clockAt : nat -> Z;                                   (* new Date() *)
  dateParse : string -> option Z;                       (* Date.parse, None is NaN *)
  uuidAt : nat -> string;                               (* crypto.randomUUID() *)
  storeFault : nat -> option string;                    (* the store rejects a statement *)
  fetchPost : nat -> string -> Row -> response (option Row);
  fetchPut : nat -> string -> value -> Row -> response (option Row);
  fetchList : nat -> string -> response Listing;
}.

(** The store, the persisted configuration row, and the interaction count. *)
Record World := {
  db : gmap string (list Row);
  app_config : option RemoteConfig;
  tick : nat;
}.

Definition table (name : string) (w : World) : list Row :=
  default [] (db w !! name).

Definition next (w : World) : World :=
  {| db := db w; app_config := app_config w; tick := S (tick w) |}.

Definition setTable (name : string) (rows : list Row) (w : World) : World :=
  {| db := <[name := rows]> (db w); app_config := app_config w; tick := tick w |}.

(** ** Computations: state that survives an exception *)

Definition M (S A : Type) : Type := S -> (exn + A) * S.

Definition ret {S A} (a : A) : M S A := fun s => (inr a, s).

Definition throw {S A} (e : exn) : M S A := fun s => (inl e, s).

Definition bind {S A B} (m : M S A) (k : A -> M S B) : M S B :=
  fun s => match m s with
           | (inr a, s') => k a s'
           | (inl e, s') => (inl e, s')
           end.

Definition tryCatch {S A} (m : M S A) (h : exn -> M S A) : M S A :=
  fun s => match m s with
           | (inr a, s') => (inr a, s')
           | (inl e, s') => h e s'
           end.

Definition modify {S} (f : S -> S) : M S unit := fun s => (inr tt, f s).

Declare Scope m_scope.
Delimit Scope m_scope with m.
Notation "x <- m ;; k" := (bind m (fun x => k))
  (at level 100, m at next level, right associativity) : m_scope.
Notation "m ;; k" := (bind m (fun _ => k))
  (at level 100, right associativity) : m_scope.

(** [for (const x of l) body(x)]. *)
Fixpoint forEach {S A} (l : list A) (body : A -> M S unit) : M S unit :=
  match l with
  | [] => ret tt
  | x :: l' => bind (body x) (fun _ => forEach l' body)
  end.

Local Open Scope m_scope.

(** ** BaseRepository *)

Record Repo := {
  tableName : string;
  remoteConfig : option RemoteConfig;
}.

(** [this.remoteConfig?.enabled] and [this.remoteConfig.features.contentSync]. *)
Definition configEnabled (c : option RemoteConfig) : bool :=
  match c with
  | Some cfg => enabled cfg
  | None => false
  end.

Definition configContentSync (c : option RemoteConfig) : bool :=
  match c with
  | Some cfg => contentSync (features cfg)
  | None => false
  end.

Definition emptyResult : SyncResult :=
  {| success := true; conflicts := []; updated := 0; created := 0;
     deleted := 0; errors := [] |}.

Definition notEnabledResult : SyncResult :=
  {| success := false; conflicts := []; updated := 0; created := 0;
     deleted := 0; errors := [NotEnabled] |}.

(** [result.updated++], [result.created++], [result.conflicts.push(c)],
    [result.errors.push(e)], [result.success = false]. *)
Definition incUpdated (r : SyncResult) : SyncResult :=
  {| success := success r; conflicts := conflicts r; updated := S (updated r);
     created := created r; deleted := deleted r; errors := errors r |}.

Definition incCreated (r : SyncResult) : SyncResult :=
  {| success := success r; conflicts := conflicts r; updated := updated r;
     created := S (created r); deleted := deleted r; errors := errors r |}.

Definition pushConflict (c : Conflict) (r : SyncResult) : SyncResult :=
  {| success := success r; conflicts := conflicts r ++ [c]; updated := updated r;
     created := created r; deleted := deleted r; errors := errors r |}.

Definition pushError (e : SyncError) (r : SyncResult) : SyncResult :=
  {| success := success r; conflicts := conflicts r; updated := updated r;
     created := created r; deleted := deleted r; errors := errors r ++ [e] |}.

Definition setFailed (r : SyncResult) : SyncResult :=
  {| success := false; conflicts := conflicts r; updated := updated r;
     created := created r; deleted := deleted r; errors := errors r |}.

(** What the runtime raises on [remoteItem.id] when [remoteItem] is null,
    and on [for ... of] over a value that cannot be iterated. *)
Definition nullElementError : exn :=
  Thrown "TypeError: Cannot read properties of null (reading 'id')".

Definition notIterableError : exn :=
  Thrown "TypeError: remoteChanges is not iterable".

(** A repository operation run inside a sync pass, and an update of the
    pass's [result] object. *)
Definition liftW {A} (m : M World A) : M (World * SyncResult) A :=
  fun s => let (a, w') := m s.1 in (a, (w', s.2)).

Definition tell (f : SyncResult -> SyncResult) : M (World * SyncResult) unit :=
  modify (fun s => (s.1, f s.2)).

Section Repository.
Context (env : Env) (this : Repo).

(** [new Date().toISOString()] *)
Definition getCurrentTimestamp : M World value :=
  fun w => (inr (VTime (clockAt env (tick w))), next w).

(** [crypto.randomUUID()] *)
Definition generateId : M World value :=
  fun w => (inr (VStr (uuidAt env (tick w))), next w).

(** [db.select(SELECT * FROM table WHERE p)] *)
Definition select (p : Row -> bool) : M World (list Row) :=
  fun w => match storeFault env (tick w) with
           | Some msg => (inl (Thrown msg), next w)
           | None => (inr (List.filter p (table (tableName this) w)), next w)
           end.

(** [db.execute(stmt)], by the effect of the statement on the table. *)
Definition execute (f : list Row -> list Row) : M World unit :=
  fun w => match storeFault env (tick w) with
           | Some msg => (inl (Thrown msg), next w)
           | None => (inr tt, setTable (tableName this)
                                (f (table (tableName this) w)) (next w))
           end.

(** [db.execute] of a text that is not a statement. *)
Definition executeMalformed : M World unit :=
  fun w => (inl StoreSyntaxError, next w).

(** [UPDATE table SET sets WHERE id = $1] *)
Definition updateWhereId (id : value) (sets : list (string * value))
    (rows : list Row) : list Row :=
  (fun r => if sqlEq (r !! "id") id then assign r sets else r) <$> rows.

Definition getLocal (id : value) : M World (option Row) :=
  result <- select (whereLive id) ;;
  ret (head result).

Definition saveLocal (data : Row) : M World Row :=
  id <- (if truthy (data !! "id") then ret (field "id" data) else generateId) ;;
  now <- getCurrentTimestamp ;;
  let entity :=
    <["is_deleted" := VBool false]>
      (<["updated_at" := now]>
         (<["created_at" := if truthy (data !! "created_at")
                            then field "created_at" data else now]>
            (<["id" := id]> data))) in
  execute (fun rows => (rows ++ [sqlValue <$> entity])%list) ;;
  ret entity.

Definition updateLocal (id : value) (data : Row) : M World Row :=
  existing <- getLocal id ;;
  match existing with
  | None => throw (NotFound id)
  | Some ex =>
      now <- getCurrentTimestamp ;;
      let updated := <["updated_at" := now]> (<["id" := id]> (data ∪ ex)) in
      let cols := filter (fun k => k <> "id") (objectKeys data) in
      let values := (fun k => (k, field k updated)) <$> cols in
      stamp <- getCurrentTimestamp ;;
      (match cols with
       | [] => executeMalformed
       | _ => execute (updateWhereId id (values ++ [("updated_at", stamp)])%list)
       end) ;;
      ret updated
  end.

Definition deleteLocal (id : value) : M World unit :=
  now <- getCurrentTimestamp ;;
  execute (updateWhereId id [("is_deleted", VNum 1); ("updated_at", now)]).

(** *** Remote operations *)

Definition saveRemote (data : Row) : M World (option Row) :=
  if negb (configEnabled (remoteConfig this)) then throw RemoteDisabled
  else fun w =>
    match fetchPost env (tick w) (tableName this) data with
    | Unreachable msg => (inl (Thrown msg), next w)
    | Rejected st => (inl (RemoteSaveFailed st), next w)
    | Ok body => (inr body, next w)
    end.

Definition updateRemote (id : value) (data : Row) : M World (option Row) :=
  if negb (configEnabled (remoteConfig this)) then throw RemoteDisabled
  else fun w =>
    match fetchPut env (tick w) (tableName this) id data with
    | Unreachable msg => (inl (Thrown msg), next w)
    | Rejected st => (inl (RemoteUpdateFailed st), next w)
    | Ok body => (inr body, next w)
    end.

Definition listRemote : M World Listing :=
  if negb (configEnabled (remoteConfig this)) then ret (Elements [])
  else fun w =>
    match fetchList env (tick w) (tableName this) with
    | Ok body => (inr body, next w)
    | _ => (inr (Elements []), next w)
    end.

(** *** Synchronisation *)

Definition getLocalChanges : M World (list Row) :=
  select whereDirty.

(** [await this.listRemote() || []] *)
Definition getRemoteChanges : M World Listing :=
  remote <- listRemote ;;
  ret (match remote with
       | NoArray false => Elements []
       | _ => remote
       end).

Definition findLocalByRemoteId (remoteId : value) : M World (option Row) :=
  result <- select (whereRemoteId remoteId) ;;
  ret (head result).

Definition hasConflict (local remote : Row) : bool :=
  let localTime := getTime (dateParse env) (local !! "updated_at") in
  let remoteTime := getTime (dateParse env) (remote !! "updated_at") in
  let syncTime := if truthy (local !! "last_sync_at")
                  then getTime (dateParse env) (local !! "last_sync_at")
                  else Some 0 in
  numGt localTime syncTime && numGt remoteTime syncTime
  && numNeq localTime remoteTime.

(** The body of the push loop: the remote write with its write-back of
    [remote_id], then the stamp of [last_sync_at]; and its handler. *)
Definition pushWrite (item : Row) : M (World * SyncResult) unit :=
  if truthy (item !! "remote_id") then
    liftW (updateRemote (field "remote_id" item) item) ;;
    tell incUpdated
  else
    remoteItem <- liftW (saveRemote item) ;;
    match remoteItem with
    | Some ri =>
        liftW (updateLocal (field "id" item) {["remote_id" := field "id" ri]}) ;;
        tell incCreated
    | None => ret tt
    end.

Definition pushBody (item : Row) : M (World * SyncResult) unit :=
  pushWrite item ;;
  ts <- liftW getCurrentTimestamp ;;
  liftW (updateLocal (field "id" item) {["last_sync_at" := ts]}) ;;
  ret tt.

Definition pushItem (item : Row) : M (World * SyncResult) unit :=
  tryCatch (pushBody item)
    (fun error => tell (pushError (ItemFailed (field "id" item) error)) ;;
                  tell setFailed).

(** The body of the pull loop, with its handler. *)
Definition pullBody (remoteItem : Row) : M (World * SyncResult) unit :=
  localItem <- liftW (findLocalByRemoteId (field "id" remoteItem)) ;;
  match localItem with
  | Some li =>
      if hasConflict li remoteItem then
        tell (pushConflict {| c_id := field "id" li;
                              c_table := tableName this;
                              local_data := li;
                              remote_data := remoteItem;
                              conflict_type := Update |})
      else
        liftW (updateLocal (field "id" li) remoteItem) ;;
        tell incUpdated
  | None =>
      id <- liftW generateId ;;
      let newLocal := <["id" := id]>
                        (<["remote_id" := field "id" remoteItem]> remoteItem) in
      liftW (saveLocal newLocal) ;;
      tell incCreated
  end.

Definition pullItem (remoteItem : Row) : M (World * SyncResult) unit :=
  tryCatch (pullBody remoteItem)
    (fun error => tell (pushError (MergeFailed (field "id" remoteItem) error)) ;;
                  tell setFailed).

(** The pull loop on one element of the listing.  On null, [remoteItem.id]
    raises in the body and again in the handler, whose message reads it:
    nothing is recorded and the exception leaves the loop. *)
Definition pullElement (element : option Row) : M (World * SyncResult) unit :=
  match element with
  | Some remoteItem => pullItem remoteItem
  | None => throw nullElementError
  end.

(** The outer [try] block and its handler; [for ... of] raises on a value
    that cannot be iterated. *)
Definition syncBody : M (World * SyncResult) unit :=
  localChanges <- liftW getLocalChanges ;;
  forEach localChanges pushItem ;;
  remoteChanges <- liftW getRemoteChanges ;;
  match remoteChanges with
  | Elements items => forEach items pullElement
  | NoArray _ => throw notIterableError
  end.

Definition syncPass : M (World * SyncResult) unit :=
  tryCatch syncBody
    (fun error => tell setFailed ;;
                  tell (pushError (PassFailed error))).

Definition syncWithRemote : M World SyncResult :=
  if negb (configEnabled (remoteConfig this))
     || negb (configContentSync (remoteConfig this))
  then ret notEnabledResult
  else fun w =>
    match syncPass (w, emptyResult) with
    | (inr _, (w', result)) => (inr result, w')
    | (inl e, (w', _)) => (inl e, w')
    end.

End Repository.

(** ** DataManager *)

Record Manager := {
  hasDb : bool;                          (* this.db is not null *)
  userRepo : option Repo;
  todoRepo : option Repo;
  managerConfig : option RemoteConfig;   (* this.remoteConfig *)
}.

Definition liftD {A} (m : M World A) : M (Manager * World) A :=
  fun s => let (a, w') := m s.2 in (a, (s.1, w')).

Definition withConfig (config : RemoteConfig) (repo : Repo) : Repo :=
  {| tableName := tableName repo; remoteConfig := Some config |}.

Section DataManager.
Context (env : Env).

(** [INSERT OR REPLACE INTO app_config ...] *)
Definition executeConfig (config : RemoteConfig) : M World unit :=
  fun w => match storeFault env (tick w) with
           | Some msg => (inl (Thrown msg), next w)
           | None => (inr tt, {| db := db w; app_config := Some config;
                                 tick := S (tick w) |})
           end.

(** [SELECT value FROM app_config WHERE key = 'remote_config'], parsed. *)
Definition selectConfig : M World (option RemoteConfig) :=
  fun w => match storeFault env (tick w) with
           | Some msg => (inl (Thrown msg), next w)
           | None => (inr (app_config w), next w)
           end.

Definition loadRemoteConfig : M (Manager * World) unit :=
  fun s =>
    if negb (hasDb s.1) then ret tt s
    else tryCatch
           (result <- liftD selectConfig ;;
            match result with
            | Some config =>
                modify (fun s => ({| hasDb := hasDb s.1;
                                     userRepo := withConfig config <$> userRepo s.1;
                                     todoRepo := withConfig config <$> todoRepo s.1;
                                     managerConfig := Some config |}, s.2))
            | None => ret tt
            end)
           (fun _ => ret tt) s.

Definition initialize : M (Manager * World) unit :=
  modify (fun s => ({| hasDb := true;
                       userRepo := Some {| tableName := "users";
                                           remoteConfig := None |};
                       todoRepo := Some {| tableName := "todos";
                                           remoteConfig := None |};
                       managerConfig := managerConfig s.1 |}, s.2)) ;;
  loadRemoteConfig.

Definition saveRemoteConfig (config : RemoteConfig) : M (Manager * World) unit :=
  fun s =>
    if negb (hasDb s.1) then ret tt s
    else tryCatch (liftD (executeConfig config)) (fun _ => ret tt) s.

Definition setRemoteConfig (config : RemoteConfig) : M (Manager * World) unit :=
  modify (fun s => ({| hasDb := hasDb s.1;
                       userRepo := withConfig config <$> userRepo s.1;
                       todoRepo := withConfig config <$> todoRepo s.1;
                       managerConfig := Some config |}, s.2)) ;;
  saveRemoteConfig config.

Definition getRemoteConfig : M (Manager * World) (option RemoteConfig) :=
  fun s => (inr (managerConfig s.1), s).

Definition syncAll : M (Manager * World) (gmap string SyncResult) :=
  fun s =>
    let results : gmap string SyncResult := ∅ in
    (if configEnabled (managerConfig s.1)
        && configContentSync (managerConfig s.1)
     then
       results <- match userRepo s.1 with
                  | Some repo => r <- liftD (syncWithRemote env repo) ;;
                                 ret (<["users" := r]> results)
                  | None => ret results
                  end ;;
       match todoRepo s.1 with
       | Some repo => r <- liftD (syncWithRemote env repo) ;;
                      ret (<["todos" := r]> results)
       | None => ret results
       end
     else ret results) s.

End DataManager.

(** ** Sample collaborators and data

    A clock that advances by one millisecond per interaction, a store and a
    remote service that accept everything, and a small [todos] table. *)

Definition sampleConfig : RemoteConfig :=
  {| enabled := true; baseUrl := "https://api.example.test";
     apiKey := None; syncInterval := 300;
     features := {| contentSync := true; dynamicFeed := false;
                    notifications := false |} |}.

Definition todos : Repo :=
  {| tableName := "todos"; remoteConfig := Some sampleConfig |}.

Definition remoteR9 : Row :=
  {[ "id" := VStr "r9"; "title" := VStr "Y"; "updated_at" := VTime 605 ]}.

(** [Date.parse] on the one timestamp of the samples that is not in the
    format of [toISOString]: it lacks the milliseconds. *)
Definition sampleDateParse (s : string) : option Z :=
  if String.eqb s "2024-01-02T10:05:00Z" then Some 1704189900000 else None.

Definition calmEnv : Env :=
  {| clockAt := fun n => 1000 + Z.of_nat n;
     dateParse := sampleDateParse;
     uuidAt := fun n => "6f1c0c1e-0000-4000-8000-000000000001";
     storeFault := fun _ => None;
     fetchPost := fun _ _ _ => Ok (Some remoteR9);
     fetchPut := fun _ _ _ body => Ok (Some body);
     fetchList := fun _ _ => Ok (Elements [Some remoteR9]) |}.

Definition rowA1 : Row :=
  {[ "id" := VStr "a1"; "title" := VStr "X"; "updated_at" := VTime 600 ]}.

Definition sampleWorld : World :=
  {| db := {[ "todos" := [rowA1] ]}; app_config := None; tick := 0 |}.

(** A clock that does not advance between two readings, and a table whose
    only row is soft-deleted. *)
Definition frozenEnv : Env :=
  {| clockAt := fun _ => 600;
     dateParse := dateParse calmEnv;
     uuidAt := uuidAt calmEnv;
     storeFault := fun _ => None;
     fetchPost := fetchPost calmEnv;
     fetchPut := fetchPut calmEnv;
     fetchList := fetchList calmEnv |}.

Definition rowGone : Row :=
  {[ "id" := VStr "a1"; "title" := VStr "X"; "updated_at" := VTime 600;
     "last_sync_at" := VTime 601; "is_deleted" := VNum 1;
     "remote_id" := VStr "r9" ]}.

Definition goneWorld : World :=
  {| db := {[ "todos" := [rowGone] ]}; app_config := None; tick := 0 |}.

(** ** Vocabulary of the statements *)

(** A computation that cannot raise. *)
Definition total {S A} (m : M S A) : Prop :=
  forall s, exists a s', m s = (inr a, s').

(** A computation of a sync pass that keeps a property of the [result]
    object, whether it completes or raises. *)
Definition keeps {A} (P : SyncResult -> Prop) (m : M (World * SyncResult) A) : Prop :=
  forall s, P s.2 -> P (m s).2.2.


(** No deletion counted, no conflict of the delete kind. *)
Definition updatesOnly (r : SyncResult) : Prop :=
  deleted r = 0%nat /\ Forall (fun c => conflict_type c = Update) (conflicts r).

(** A store that rejects the first statement it is given. *)
Definition lockedEnv : Env :=
  {| clockAt := clockAt calmEnv;
     dateParse := dateParse calmEnv;
     uuidAt := uuidAt calmEnv;
     storeFault := fun n => match n with
                            | O => Some "database is locked"
                            | _ => None
                            end;
     fetchPost := fetchPost calmEnv;
     fetchPut := fetchPut calmEnv;
     fetchList := fetchList calmEnv |}.

(** A remote service that answers every write with a status that is not
    ok, and a table of two records that were never synchronised: one that
    has a remote counterpart, one that has none. *)
Definition rejectingEnv : Env :=
  {| clockAt := clockAt calmEnv;
     dateParse := dateParse calmEnv;
     uuidAt := uuidAt calmEnv;
     storeFault := fun _ => None;
     fetchPost := fun _ _ _ => Rejected "Service Unavailable";
     fetchPut := fun _ _ _ _ => Rejected "Service Unavailable";
     fetchList := fun _ _ => Ok (Elements []) |}.

Definition rowDirty : Row :=
  {[ "id" := VStr "a1"; "title" := VStr "X"; "updated_at" := VTime 600;
     "remote_id" := VStr "r9" ]}.

Definition rowNew : Row :=
  {[ "id" := VStr "a2"; "title" := VStr "W"; "updated_at" := VTime 700 ]}.

Definition dirtyWorld : World :=
  {| db := {[ "todos" := [rowDirty; rowNew] ]}; app_config := None; tick := 0 |}.

(** A record synchronised at 601 and untouched since, and the same record
    edited locally at 603; the remote counterpart was written at 605. *)
Definition rowSynced : Row :=
  {[ "id" := VStr "a1"; "title" := VStr "X"; "updated_at" := VTime 600;
     "last_sync_at" := VTime 601; "remote_id" := VStr "r9" ]}.

Definition rowEdited : Row :=
  {[ "id" := VStr "a1"; "title" := VStr "X"; "updated_at" := VTime 603;
     "last_sync_at" := VTime 601; "remote_id" := VStr "r9" ]}.

Definition syncedWorld : World :=
  {| db := {[ "todos" := [rowSynced] ]}; app_config := None; tick := 0 |}.

Definition editedWorld : World :=
  {| db := {[ "todos" := [rowEdited] ]}; app_config := None; tick := 0 |}.

(** The remote counterpart as a service that drops the milliseconds sends
    it, and a remote service that lists it; a table whose only record has a
    remote counterpart and was never synchronised, and that record as a
    push at the interactions 2 to 6 leaves it. *)
Definition remoteR9Text : Row :=
  {[ "id" := VStr "r9"; "title" := VStr "Y";
     "updated_at" := VStr "2024-01-02T10:05:00Z" ]}.

Definition aheadEnv : Env :=
  {| clockAt := clockAt calmEnv;
     dateParse := dateParse calmEnv;
     uuidAt := uuidAt calmEnv;
     storeFault := fun _ => None;
     fetchPost := fetchPost calmEnv;
     fetchPut := fetchPut calmEnv;
     fetchList := fun _ _ => Ok (Elements [Some remoteR9Text]) |}.

Definition linkedWorld : World :=
  {| db := {[ "todos" := [rowDirty] ]}; app_config := None; tick := 0 |}.

Definition rowPushed : Row :=
  {[ "id" := VStr "a1"; "title" := VStr "X"; "updated_at" := VTime 1005;
     "last_sync_at" := VTime 1002; "remote_id" := VStr "r9" ]}.

(** A remote service that accepts every write and lists nothing, and a
    table whose only record was synchronised at 601 and soft-deleted at
    700. *)
Definition quietEnv : Env :=
  {| clockAt := clockAt calmEnv;
     dateParse := dateParse calmEnv;
     uuidAt := uuidAt calmEnv;
     storeFault := fun _ => None;
     fetchPost := fetchPost calmEnv;
     fetchPut := fetchPut calmEnv;
     fetchList := fun _ _ => Ok (Elements []) |}.

Definition rowGoneDirty : Row :=
  {[ "id" := VStr "a1"; "title" := VStr "X"; "updated_at" := VTime 700;
     "last_sync_at" := VTime 601; "is_deleted" := VNum 1;
     "remote_id" := VStr "r9" ]}.

Definition goneDirtyWorld : World :=
  {| db := {[ "todos" := [rowGoneDirty] ]}; app_config := None; tick := 0 |}.


(** A manager before [initialize], and a configuration that turns the
    remote service off. *)
Definition newManager : Manager :=
  {| hasDb := false; userRepo := None; todoRepo := None; managerConfig := None |}.

Definition offConfig : RemoteConfig :=
  {| enabled := false; baseUrl := baseUrl sampleConfig; apiKey := None;
     syncInterval := 300; features := features sampleConfig |}.

(** ** Listing, counting, and the queries of the concrete repositories *)

(** [ORDER BY]: [a] sorts after [b] in ascending order; NULL sorts first. *)
Definition orderGt (a b : option value) : bool :=
  if sqlIsNull a then false
  else if sqlIsNull b then true
  else sqlGt a b.

(** [ORDER BY ... DESC] as an insertion sort; rows that compare equal stay
    in the order of the table (SQLite leaves their order open). *)
Fixpoint insertDesc (gt : Row -> Row -> bool) (x : Row) (l : list Row) : list Row :=
  match l with
  | [] => [x]
  | y :: l' => if gt y x then y :: insertDesc gt x l' else x :: y :: l'
  end.

Definition orderByDesc (gt : Row -> Row -> bool) (l : list Row) : list Row :=
  foldr (insertDesc gt) [] l.

(** [updated_at DESC], and [priority DESC, created_at DESC]. *)
Definition byUpdatedAt (a b : Row) : bool :=
  orderGt (a !! "updated_at") (b !! "updated_at").

Definition byPriorityCreatedAt (a b : Row) : bool :=
  orderGt (a !! "priority") (b !! "priority")
  || (negb (orderGt (b !! "priority") (a !! "priority"))
      && orderGt (a !! "created_at") (b !! "created_at")).

(** [LIMIT limit OFFSET offset]: a negative limit is no limit, a negative
    offset is no offset. *)
Definition sqlLimit (limit offset : Z) (l : list Row) : list Row :=
  let rest := drop (Z.to_nat offset) l in
  if limit <? 0 then rest else take (Z.to_nat limit) rest.

(** [BaseRepository.buildFilterConditions], as the condition its text and
    parameters denote on a row: one equality per property of the filter
    that is neither undefined nor null. *)
Definition buildFilterConditions (filter : Row) (r : Row) : bool :=
  forallb (fun key => sqlEq (r !! key) (field key filter))
    (List.filter (fun key => negb (sqlIsNull (filter !! key))) (objectKeys filter)).

(** [TodoRepository.buildFilterConditions].  A property of the filter that
    is undefined is an absent one.  [like search c] is the store's
    [c LIKE '%search%']. *)
Definition todoFilterConditions (like : value -> option value -> bool)
    (filter : Row) (r : Row) : bool :=
  (if truthy (filter !! "user_id")
   then sqlEq (r !! "user_id") (field "user_id" filter) else true)
  && match filter !! "completed" with
     | Some c => sqlEq (r !! "completed") (VNum (if truthy (Some c) then 1 else 0))
     | None => true
     end
  && match filter !! "priority" with
     | Some p => sqlEq (r !! "priority") p
     | None => true
     end
  && (if truthy (filter !! "search")
      then like (field "search" filter) (r !! "title")
           || like (field "search" filter) (r !! "description")
      else true).

(** The WHERE clause of [listLocal] and [countLocal]. *)
Definition whereListed (conditions : Row -> Row -> bool) (filter : option Row)
    (r : Row) : bool :=
  notDeleted r && match filter with
                  | Some f => conditions f r
                  | None => true
                  end.

Section Queries.
Context (env : Env) (this : Repo).

(** [conditions] is [this.buildFilterConditions], which a repository may
    override. *)
Definition listLocal (conditions : Row -> Row -> bool) (filter : option Row)
    (limit offset : option Z) : M World (list Row) :=
  result <- select env this (whereListed conditions filter) ;;
  ret (sqlLimit (default 50 limit) (default 0 offset)
         (orderByDesc byUpdatedAt result)).

Definition countLocal (conditions : Row -> Row -> bool) (filter : option Row)
    : M World nat :=
  result <- select env this (whereListed conditions filter) ;;
  ret (length result).

Definition resolveConflict (conflict : Conflict) : M World unit :=
  let localTime := getTime (dateParse env) (local_data conflict !! "updated_at") in
  let remoteTime := getTime (dateParse env) (remote_data conflict !! "updated_at") in
  if numGt remoteTime localTime then
    updateLocal env this (field "id" (local_data conflict)) (remote_data conflict) ;;
    ret tt
  else ret tt.

(** UserRepository *)
Definition findByEmail (email : value) : M World (option Row) :=
  result <- select env this (fun r => sqlEq (r !! "email") email && notDeleted r) ;;
  ret (head result).

(** TodoRepository *)
Definition whereUserTodos (userId : value) (completed : option value) (r : Row) : bool :=
  sqlEq (r !! "user_id") userId && notDeleted r
  && match completed with
     | Some c => sqlEq (r !! "completed") (VNum (if truthy (Some c) then 1 else 0))
     | None => true
     end.

Definition getByUserId (userId : value) (completed : option value)
    : M World (list Row) :=
  result <- select env this (whereUserTodos userId completed) ;;
  ret (orderByDesc byPriorityCreatedAt result).

Definition markCompleted (id : value) (completed : option value) : M World Row :=
  updateLocal env this id {[ "completed" := default (VBool true) completed ]}.

End Queries.

(** [w'] differs from [w] at most by the rows of the table [name] and by
    the count of interactions, which has not gone back. *)
Definition sameElsewhere (name : string) (w w' : World) : Prop :=
  app_config w' = app_config w
  /\ (tick w <= tick w')%nat
  /\ forall other, other <> name -> table other w' = table other w.

(** Computations that write to no table but [name]. *)
Definition confined (name : string) {A} (m : M World A) : Prop :=
  forall w, sameElsewhere name w (m w).2.

Definition confinedPass (name : string) {A} (m : M (World * SyncResult) A) : Prop :=
  forall s, sameElsewhere name s.1 (m s).2.1.

(** Three todos of two users, the third soft-deleted; a remote service
    that cannot be reached; a manager after [initialize]; a conflict as the
    pull phase records it; a [LIKE] that matches nothing. *)
Definition rowT1 : Row :=
  {[ "id" := VStr "t1"; "user_id" := VStr "u1"; "title" := VStr "Buy milk";
     "completed" := VNum 0; "priority" := VNum 2;
     "created_at" := VTime 100; "updated_at" := VTime 300 ]}.

Definition rowT2 : Row :=
  {[ "id" := VStr "t2"; "user_id" := VStr "u1"; "title" := VStr "Call home";
     "completed" := VNum 1; "priority" := VNum 1;
     "created_at" := VTime 110; "updated_at" := VTime 500 ]}.

Definition rowT3 : Row :=
  {[ "id" := VStr "t3"; "user_id" := VStr "u2"; "title" := VStr "Old";
     "completed" := VNum 0; "priority" := VNum 3; "is_deleted" := VNum 1;
     "created_at" := VTime 90; "updated_at" := VTime 400 ]}.

Definition listWorld : World :=
  {| db := {[ "todos" := [rowT1; rowT2; rowT3] ]}; app_config := None; tick := 0 |}.

Definition offlineEnv : Env :=
  {| clockAt := clockAt calmEnv;
     dateParse := dateParse calmEnv;
     uuidAt := uuidAt calmEnv;
     storeFault := fun _ => None;
     fetchPost := fun _ _ _ => Unreachable "Failed to fetch";
     fetchPut := fun _ _ _ _ => Unreachable "Failed to fetch";
     fetchList := fun _ _ => Unreachable "Failed to fetch" |}.

Definition readyManager : Manager :=
  {| hasDb := true;
     userRepo := Some {| tableName := "users"; remoteConfig := None |};
     todoRepo := Some {| tableName := "todos"; remoteConfig := None |};
     managerConfig := None |}.

Definition sampleConflict : Conflict :=
  {| c_id := VStr "a1"; c_table := "todos"; local_data := rowEdited;
     remote_data := remoteR9; conflict_type := Update |}.

(** The same conflict with the remote record as a service that drops the
    milliseconds sends it. *)
Definition textConflict : Conflict :=
  {| c_id := VStr "a1"; c_table := "todos"; local_data := rowEdited;
     remote_data := remoteR9Text; conflict_type := Update |}.

Definition noLike (search : value) (column : option value) : bool := false.

(** What [saveLocal] of a titled record returns and leaves on the sample
    data. *)
Definition savedEntity : Row :=
  {[ "id" := VStr "6f1c0c1e-0000-4000-8000-000000000001"; "title" := VStr "Z";
     "created_at" := VTime 1001; "updated_at" := VTime 1001;
     "is_deleted" := VBool false ]}.

Definition savedWorld : World :=
  {| db := {[ "todos" := [rowA1; sqlValue <$> savedEntity] ]};
     app_config := None; tick := 3 |}.

(** The id column of [name] in [w] is the beginning of the id column of
    [name] in [w']: no row has gone and no row has changed its id. *)
Definition idsKept (name : string) (w w' : World) : Prop :=
  exists added,
    ((fun r : Row => r !! "id") <$> table name w')
    = (((fun r : Row => r !! "id") <$> table name w) ++ added)%list.

(** * Properties *)

(** ** The store *)

Lemma table_setTable name rows w : table name (setTable name rows w) = rows.
Proof. unfold table, setTable; simpl. by rewrite lookup_insert_eq. Qed.

Lemma table_setTable_ne name name' rows w :
  name <> name' -> table name' (setTable name rows w) = table name' w.
Proof. intros Hne. unfold table, setTable; simpl. by rewrite lookup_insert_ne. Qed.

Lemma table_next name w : table name (next w) = table name w.
Proof. reflexivity. Qed.

Lemma assign_snoc r sets k v :
  assign r (sets ++ [(k, v)]) = <[k := sqlValue v]> (assign r sets).
Proof. unfold assign. by rewrite foldl_app. Qed.

Lemma assign_lookup_notin r sets k :
  k ∉ sets.*1 -> assign r sets !! k = r !! k.
Proof.
  revert r. induction sets as [|[k' v'] sets IH]; intros r Hk; [done|].
  simpl in Hk. apply not_elem_of_cons in Hk as [Hne Hk].
  change (assign (<[k' := sqlValue v']> r) sets !! k = r !! k).
  rewrite IH by done. by rewrite lookup_insert_ne.
Qed.

Lemma assign_lookup_in r sets k v :
  NoDup sets.*1 -> (k, v) ∈ sets -> assign r sets !! k = Some (sqlValue v).
Proof.
  revert r. induction sets as [|[k' v'] sets IH]; intros r Hnd Hin.
  - by apply elem_of_nil in Hin.
  - simpl in Hnd. apply NoDup_cons in Hnd as [Hk' Hnd].
    change (assign (<[k' := sqlValue v']> r) sets !! k = Some (sqlValue v)).
    apply elem_of_cons in Hin as [Heq|Hin].
    + inversion Heq; subst. rewrite assign_lookup_notin by done.
      by rewrite lookup_insert_eq.
    + by apply IH.
Qed.

(** The rows an UPDATE leaves alone. *)
Lemma updateWhereId_absent id sets rows :
  existsb (fun r => sqlEq (r !! "id") id) rows = false ->
  updateWhereId id sets rows = rows.
Proof.
  induction rows as [|r rows IH]; [done|]. simpl.
  intros [Hr Hrows]%orb_false_iff. unfold updateWhereId in *.
  cbn [fmap list_fmap]. rewrite Hr. f_equal. by apply IH.
Qed.

Lemma softDelete_row r n :
  assign r [("is_deleted", VNum 1); ("updated_at", VTime n)]
  = <["updated_at" := VTime n]> (<["is_deleted" := VNum 1]> r).
Proof. reflexivity. Qed.

Lemma softDelete_twice id n1 n2 rows :
  updateWhereId id [("is_deleted", VNum 1); ("updated_at", VTime n2)]
    (updateWhereId id [("is_deleted", VNum 1); ("updated_at", VTime n1)] rows)
  = updateWhereId id [("is_deleted", VNum 1); ("updated_at", VTime n2)] rows.
Proof.
  unfold updateWhereId. rewrite <- list_fmap_compose.
  apply list_fmap_ext. intros _ r _. cbn [compose].
  destruct (sqlEq (r !! "id") id) eqn:Hid; [|by rewrite Hid].
  rewrite !softDelete_row.
  rewrite !lookup_insert_ne by done. rewrite Hid.
  apply map_eq. intros k.
  destruct (decide (k = "updated_at")) as [->|?];
    [by rewrite !lookup_insert_eq|].
  rewrite !(lookup_insert_ne _ "updated_at") by done.
  destruct (decide (k = "is_deleted")) as [->|?];
    [by rewrite !lookup_insert_eq|].
  by repeat (rewrite lookup_insert_ne by done).
Qed.

(** ** deleteLocal *)

Lemma deleteLocal_run env this id w :
  storeFault env (S (tick w)) = None ->
  deleteLocal env this id w
  = (inr tt,
     setTable (tableName this)
       (updateWhereId id [("is_deleted", VNum 1);
                          ("updated_at", VTime (clockAt env (tick w)))]
          (table (tableName this) w))
       (next (next w))).
Proof.
  intros Hok. unfold deleteLocal, bind, getCurrentTimestamp, execute.
  cbn [next tick]. by rewrite Hok.
Qed.

Lemma deleteLocal_fault env this id w msg :
  storeFault env (S (tick w)) = Some msg ->
  deleteLocal env this id w = (inl (Thrown msg), next (next w)).
Proof.
  intros Hko. unfold deleteLocal, bind, getCurrentTimestamp, execute.
  cbn [next tick]. by rewrite Hko.
Qed.

Lemma updateWhereId_softDeleted id n rows r :
  r ∈ updateWhereId id [("is_deleted", VNum 1); ("updated_at", VTime n)] rows ->
  sqlEq (r !! "id") id = true ->
  r !! "is_deleted" = Some (VNum 1) /\ r !! "updated_at" = Some (VTime n)
  /\ notDeleted r = false.
Proof.
  unfold updateWhereId. intros (r0 & -> & _)%list_elem_of_fmap.
  destruct (sqlEq (r0 !! "id") id) eqn:Hid; [|congruence].
  intros _. rewrite softDelete_row. unfold notDeleted.
  rewrite lookup_insert_ne by done. by rewrite !lookup_insert_eq.
Qed.

(** C7: [deleteLocal(id)] sets [is_deleted] and stamps [updated_at] on the
    rows of that id; a second call on the same id completes as the first one
    did, every row of that id is still marked deleted, and the table is then
    what a single call made at the time of the second would have left. *)
Theorem deleteLocal_idempotent env this id w :
  storeFault env (S (tick w)) = None ->
  storeFault env (S (S (S (tick w)))) = None ->
  exists w1 w2,
    deleteLocal env this id w = (inr tt, w1)
    /\ deleteLocal env this id w1 = (inr tt, w2)
    /\ (forall r, r ∈ table (tableName this) w1 -> sqlEq (r !! "id") id = true ->
          r !! "is_deleted" = Some (VNum 1)
          /\ r !! "updated_at" = Some (VTime (clockAt env (tick w)))
          /\ notDeleted r = false)
    /\ (forall r, r ∈ table (tableName this) w2 -> sqlEq (r !! "id") id = true ->
          r !! "is_deleted" = Some (VNum 1)
          /\ r !! "updated_at" = Some (VTime (clockAt env (tick w1)))
          /\ notDeleted r = false)
    /\ table (tableName this) w2
       = updateWhereId id [("is_deleted", VNum 1);
                           ("updated_at", VTime (clockAt env (tick w1)))]
           (table (tableName this) w)
    /\ ((fun r => r !! "is_deleted") <$> table (tableName this) w2)
       = ((fun r => r !! "is_deleted") <$> table (tableName this) w1).
Proof.
  intros H1 H2. eexists _, _.
  split; [by apply deleteLocal_run|].
  split; [by apply deleteLocal_run|].
  rewrite !table_setTable.
  split; [by apply updateWhereId_softDeleted|].
  split; [rewrite softDelete_twice; by apply updateWhereId_softDeleted|].
  split; [by rewrite softDelete_twice|].
  unfold updateWhereId. rewrite <- !list_fmap_compose.
  apply list_fmap_ext. intros _ r _. cbn [compose].
  destruct (sqlEq (r !! "id") id) eqn:Hid; rewrite ?softDelete_row.
  - rewrite !(lookup_insert_ne _ _ "id") by done. rewrite Hid.
    by rewrite !(lookup_insert_ne _ "updated_at"), !lookup_insert_eq by done.
  - by rewrite Hid.
Qed.

(** C10: [deleteLocal] has no existence check.  It never raises the
    not-found error, whatever the id; for an id that no row of the table
    carries it leaves every table as it was, and it completes whenever the
    store accepts the statement. *)
Theorem deleteLocal_absent_id env this id w :
  (forall i, (deleteLocal env this id w).1 <> inl (NotFound i))
  /\ (existsb (fun r => sqlEq (r !! "id") id) (table (tableName this) w) = false ->
      (forall name, table name (deleteLocal env this id w).2 = table name w)
      /\ (storeFault env (S (tick w)) = None ->
          (deleteLocal env this id w).1 = inr tt)).
Proof.
  split.
  - intros i. destruct (storeFault env (S (tick w))) as [msg|] eqn:Hf.
    + by rewrite (deleteLocal_fault _ _ _ _ msg).
    + by rewrite deleteLocal_run.
  - intros Habs. split.
    + intros name. destruct (storeFault env (S (tick w))) as [msg|] eqn:Hf.
      * by rewrite (deleteLocal_fault _ _ _ _ msg).
      * rewrite deleteLocal_run by done. cbn [snd].
        rewrite updateWhereId_absent by done.
        destruct (decide (tableName this = name)) as [<-|Hne].
        -- by rewrite table_setTable.
        -- by rewrite table_setTable_ne.
    + intros Hf. by rewrite deleteLocal_run.
Qed.

Lemma deleteLocal_idempotent_witness :
  exists w1 w2,
    deleteLocal calmEnv todos (VStr "a1") sampleWorld = (inr tt, w1)
    /\ deleteLocal calmEnv todos (VStr "a1") w1 = (inr tt, w2)
    /\ ((fun r => r !! "is_deleted") <$> table "todos" w2) = [Some (VNum 1)].
Proof.
  destruct (deleteLocal_idempotent calmEnv todos (VStr "a1") sampleWorld
              eq_refl eq_refl) as (w1 & w2 & H1 & H2 & _ & _ & Ht & _).
  exists w1, w2. split; [exact H1|]. split; [exact H2|].
  change (tableName todos) with "todos" in Ht. rewrite Ht. reflexivity.
Defined.

Lemma deleteLocal_absent_id_witness :
  (deleteLocal calmEnv todos (VStr "zz") sampleWorld).1 = inr tt
  /\ table "todos" (deleteLocal calmEnv todos (VStr "zz") sampleWorld).2 = [rowA1].
Proof.
  destruct (deleteLocal_absent_id calmEnv todos (VStr "zz") sampleWorld)
    as [_ H].
  destruct (H eq_refl) as [Ht Hr].
  split; [exact (Hr eq_refl)|]. rewrite Ht. reflexivity.
Defined.

(** ** saveLocal *)

(** C5, as the code has it: [saveLocal(partial)] takes the id of the input,
    or asks the identifier source for one when the input has none; it stamps
    [created_at] to now only when the input has none, stamps [updated_at] to
    now in every case, sets [is_deleted] to false, keeps every other
    property of the input, appends the entity to the table and returns it.
    When the input has neither an id nor a [created_at], the returned
    [created_at] and [updated_at] are equal. *)
Theorem saveLocal_entity env this data w :
  let minted := negb (truthy (data !! "id")) in
  let t := if minted then S (tick w) else tick w in
  let now := VTime (clockAt env t) in
  storeFault env (S t) = None ->
  exists entity w',
    saveLocal env this data w = (inr entity, w')
    /\ entity !! "id" = Some (if minted then VStr (uuidAt env (tick w))
                              else field "id" data)
    /\ entity !! "created_at" = Some (if truthy (data !! "created_at")
                                      then field "created_at" data else now)
    /\ entity !! "updated_at" = Some now
    /\ entity !! "is_deleted" = Some (VBool false)
    /\ (forall k, k ∉ ["id"; "created_at"; "updated_at"; "is_deleted"] ->
          entity !! k = data !! k)
    /\ table (tableName this) w'
       = (table (tableName this) w ++ [sqlValue <$> entity])%list
    /\ (minted = true -> truthy (data !! "created_at") = false ->
        entity !! "created_at" = entity !! "updated_at").
Proof.
  intros minted t now Hok. subst minted t now.
  unfold saveLocal, bind, generateId, getCurrentTimestamp, execute, ret.
  destruct (truthy (data !! "id")) eqn:Hid; cbn [negb next tick] in *;
    rewrite Hok; eexists _, _; (split; [reflexivity|]);
    rewrite table_setTable;
    (split; [by rewrite !lookup_insert_ne, lookup_insert_eq by done|]);
    (split; [by rewrite !lookup_insert_ne, lookup_insert_eq by done|]);
    (split; [by rewrite !lookup_insert_ne, lookup_insert_eq by done|]);
    (split; [by rewrite lookup_insert_eq|]);
    (split; [|split; [done|]]).
  - intros k Hk. repeat (apply not_elem_of_cons in Hk as [? Hk]).
    by rewrite !lookup_insert_ne by done.
  - done.
  - intros k Hk. repeat (apply not_elem_of_cons in Hk as [? Hk]).
    by rewrite !lookup_insert_ne by done.
  - intros _ Hc.
    rewrite (lookup_insert_ne _ "is_deleted" "updated_at") by done.
    rewrite (lookup_insert_eq _ "updated_at").
    rewrite !lookup_insert_ne by done.
    rewrite lookup_insert_eq. by rewrite Hc.
Qed.

Lemma saveLocal_entity_witness :
  exists entity w',
    saveLocal calmEnv todos {[ "title" := VStr "Z" ]} sampleWorld = (inr entity, w')
    /\ entity !! "id" = Some (VStr "6f1c0c1e-0000-4000-8000-000000000001")
    /\ entity !! "created_at" = Some (VTime 1001)
    /\ entity !! "updated_at" = Some (VTime 1001)
    /\ length (table "todos" w') = 2%nat.
Proof.
  destruct (saveLocal_entity calmEnv todos {[ "title" := VStr "Z" ]} sampleWorld
              eq_refl)
    as (entity & w' & Hrun & Hid & Hc & Hu & _ & _ & Ht & _).
  exists entity, w'. split; [exact Hrun|]. split; [exact Hid|].
  split; [exact Hc|]. split; [exact Hu|].
  change (tableName todos) with "todos" in Ht. rewrite Ht. reflexivity.
Defined.

(** C5 as stated fails: an input without id that carries its own
    [created_at] and [updated_at] comes back with [updated_at] replaced by
    now, and with [created_at] different from [updated_at]. *)
Lemma saveLocal_stamps_updated_at_always :
  let data : Row := {[ "created_at" := VTime 5; "updated_at" := VTime 7 ]} in
  data !! "id" = None
  /\ data !! "updated_at" = Some (VTime 7)
  /\ match (saveLocal calmEnv todos data sampleWorld).1 with
     | inr entity =>
         entity !! "updated_at" = Some (VTime 1001)
         /\ entity !! "created_at" = Some (VTime 5)
         /\ entity !! "created_at" <> entity !! "updated_at"
     | inl _ => False
     end.
Proof. vm_compute. repeat split; try reflexivity. discriminate. Qed.

(** ** getLocal, updateLocal *)

Lemma select_run env this p w :
  storeFault env (tick w) = None ->
  select env this p w = (inr (List.filter p (table (tableName this) w)), next w).
Proof. intros H. unfold select. by rewrite H. Qed.

Lemma select_fault env this p w msg :
  storeFault env (tick w) = Some msg ->
  select env this p w = (inl (Thrown msg), next w).
Proof. intros H. unfold select. by rewrite H. Qed.

Lemma getLocal_run env this id w :
  storeFault env (tick w) = None ->
  getLocal env this id w
  = (inr (head (List.filter (whereLive id) (table (tableName this) w))), next w).
Proof. intros H. unfold getLocal, bind. by rewrite select_run. Qed.

Lemma getLocal_fault env this id w msg :
  storeFault env (tick w) = Some msg ->
  getLocal env this id w = (inl (Thrown msg), next w).
Proof. intros H. unfold getLocal, bind. by rewrite (select_fault _ _ _ _ msg). Qed.

Lemma elem_of_objectKeys (o : Row) k : k ∈ objectKeys o <-> is_Some (o !! k).
Proof.
  unfold objectKeys. rewrite list_elem_of_fmap. split.
  - intros ([k' v] & -> & Hin). apply elem_of_map_to_list in Hin. by exists v.
  - intros [v Hv]. exists (k, v). split; [done|]. by apply elem_of_map_to_list.
Qed.

Lemma NoDup_objectKeys (o : Row) : NoDup (objectKeys o).
Proof. apply NoDup_fst_map_to_list. Qed.

Lemma fst_fmap_pair {A B} (f : A -> B) (l : list A) :
  ((fun k => (k, f k)) <$> l).*1 = l.
Proof. induction l as [|x l IH]; [done|]. cbn. by f_equal. Qed.

(** What the UPDATE of [updateLocal] writes into a row of that id: the
    properties of [data] other than [id], then the second time stamp. *)
Lemma updateLocal_assign (id now stamp : value) (data ex r : Row) :
  let updated := <["updated_at" := now]> (<["id" := id]> (data ∪ ex)) in
  let cols := filter (fun k => k <> "id") (objectKeys data) in
  assign r (((fun k => (k, field k updated)) <$> cols) ++ [("updated_at", stamp)])
  = <["updated_at" := sqlValue stamp]> ((sqlValue <$> delete "id" data) ∪ r).
Proof.
  intros updated cols. rewrite assign_snoc. apply map_eq. intros k.
  destruct (decide (k = "updated_at")) as [->|Hu];
    [by rewrite !lookup_insert_eq|].
  rewrite !(lookup_insert_ne _ "updated_at") by done.
  assert (Hcols : NoDup cols) by (apply NoDup_filter, NoDup_objectKeys).
  rewrite lookup_union, lookup_fmap.
  destruct (decide (k ∈ cols)) as [Hin|Hout].
  - apply list_elem_of_filter in Hin as [Hid [v Hv]%elem_of_objectKeys].
    rewrite (assign_lookup_in _ _ k (field k updated)).
    + rewrite lookup_delete_ne, Hv by done. cbn.
      unfold field, updated.
      rewrite !lookup_insert_ne by done.
      rewrite lookup_union, Hv. by destruct (ex !! k), (r !! k).
    + by rewrite fst_fmap_pair.
    + apply list_elem_of_fmap. exists k. split; [done|].
      apply list_elem_of_filter. split; [done|].
      apply elem_of_objectKeys. by exists v.
  - rewrite assign_lookup_notin.
    + destruct (decide (k = "id")) as [->|Hid].
      * rewrite lookup_delete_eq. cbn. by destruct (r !! "id").
      * rewrite lookup_delete_ne by done.
        destruct (data !! k) as [v|] eqn:Hv.
        -- exfalso. apply Hout. apply list_elem_of_filter. split; [done|].
           apply elem_of_objectKeys. by exists v.
        -- cbn. by destruct (r !! k).
    + by rewrite fst_fmap_pair.
Qed.

Lemma updateLocal_missing env this id data w :
  storeFault env (tick w) = None ->
  head (List.filter (whereLive id) (table (tableName this) w)) = None ->
  updateLocal env this id data w = (inl (NotFound id), next w).
Proof.
  intros Hok Hnone. unfold updateLocal, bind.
  by rewrite getLocal_run, Hnone.
Qed.

Lemma updateLocal_select_fault env this id data w msg :
  storeFault env (tick w) = Some msg ->
  updateLocal env this id data w = (inl (Thrown msg), next w).
Proof.
  intros Hko. unfold updateLocal, bind.
  by rewrite (getLocal_fault _ _ _ _ msg).
Qed.

Lemma updateLocal_malformed env this id data w ex :
  storeFault env (tick w) = None ->
  head (List.filter (whereLive id) (table (tableName this) w)) = Some ex ->
  filter (fun k => k <> "id") (objectKeys data) = [] ->
  updateLocal env this id data w
  = (inl StoreSyntaxError, next (next (next (next w)))).
Proof.
  intros Hok Hex Hcols. unfold updateLocal, bind.
  rewrite getLocal_run, Hex by done.
  unfold getCurrentTimestamp. cbn zeta. by rewrite Hcols.
Qed.

Lemma updateLocal_execute_fault env this id data w ex msg :
  storeFault env (tick w) = None ->
  head (List.filter (whereLive id) (table (tableName this) w)) = Some ex ->
  filter (fun k => k <> "id") (objectKeys data) <> [] ->
  storeFault env (S (S (S (tick w)))) = Some msg ->
  updateLocal env this id data w
  = (inl (Thrown msg), next (next (next (next w)))).
Proof.
  intros Hok Hex Hcols Hko. unfold updateLocal, bind.
  rewrite getLocal_run, Hex by done.
  unfold getCurrentTimestamp. cbn zeta.
  destruct (filter _ (objectKeys data)) as [|c cols] eqn:Hc; [done|].
  unfold execute. cbn [next tick]. by rewrite Hko.
Qed.

Lemma updateLocal_run env this id data w ex :
  storeFault env (tick w) = None ->
  head (List.filter (whereLive id) (table (tableName this) w)) = Some ex ->
  filter (fun k => k <> "id") (objectKeys data) <> [] ->
  storeFault env (S (S (S (tick w)))) = None ->
  updateLocal env this id data w
  = (inr (<["updated_at" := VTime (clockAt env (S (tick w)))]>
            (<["id" := id]> (data ∪ ex))),
     setTable (tableName this)
       ((fun r => if sqlEq (r !! "id") id
                  then <["updated_at" := VTime (clockAt env (S (S (tick w))))]>
                         ((sqlValue <$> delete "id" data) ∪ r)
                  else r) <$> table (tableName this) w)
       (next (next (next (next w))))).
Proof.
  intros Hok Hex Hcols Hok'. unfold updateLocal, bind.
  rewrite getLocal_run, Hex by done.
  unfold getCurrentTimestamp. cbn zeta.
  destruct (filter _ (objectKeys data)) as [|c cols] eqn:Hc; [done|].
  unfold execute, ret. cbn [next tick]. rewrite Hok'.
  do 2 f_equal. unfold updateWhereId. apply list_fmap_ext.
  intros _ r _. destruct (sqlEq (r !! "id") id); [|done].
  rewrite <- Hc. by rewrite updateLocal_assign.
Qed.

(** A failed [updateLocal] has written nothing. *)
Lemma updateLocal_failed_db env this id data w e :
  (updateLocal env this id data w).1 = inl e ->
  db (updateLocal env this id data w).2 = db w.
Proof.
  destruct (storeFault env (tick w)) as [msg|] eqn:Hsel.
  { by rewrite (updateLocal_select_fault _ _ _ _ _ msg). }
  destruct (head (List.filter (whereLive id) (table (tableName this) w)))
    as [ex|] eqn:Hex.
  2: { by rewrite updateLocal_missing. }
  destruct (decide (filter (fun k => k <> "id") (objectKeys data) = []))
    as [Hc|Hc].
  { by rewrite (updateLocal_malformed _ _ _ _ _ ex). }
  destruct (storeFault env (S (S (S (tick w))))) as [msg|] eqn:Hexe.
  { by rewrite (updateLocal_execute_fault _ _ _ _ _ ex msg). }
  by rewrite (updateLocal_run _ _ _ _ _ ex).
Qed.

Lemma cols_nonempty (data : Row) :
  (exists k, k <> "id" /\ is_Some (data !! k)) ->
  filter (fun k => k <> "id") (objectKeys data) <> [].
Proof.
  intros (k & Hk & Hin) Hnil.
  assert (k ∈ filter (fun k => k <> "id") (objectKeys data)) as Hmem.
  { apply list_elem_of_filter. split; [done|]. by apply elem_of_objectKeys. }
  rewrite Hnil in Hmem. by apply elem_of_nil in Hmem.
Qed.

(** C4, as the code has it: [updateLocal(id, partial)] raises the not-found
    error exactly when the store answers and no row of that id that is not
    soft-deleted exists (a soft-deleted row of that id is not found).  When
    such a row exists, [partial] has a property other than [id] and the store
    accepts the statement, the call returns the existing entity with the
    properties of [partial] laid over it, the id it was called with, and
    [updated_at] set to the reading of the clock; that value is later than
    the previous one exactly when the clock reading is. *)
Theorem updateLocal_contract env this id data w :
  let live := List.filter (whereLive id) (table (tableName this) w) in
  let now := clockAt env (S (tick w)) in
  ((updateLocal env this id data w).1 = inl (NotFound id)
   <-> storeFault env (tick w) = None /\ head live = None)
  /\ (forall ex,
        storeFault env (tick w) = None ->
        head live = Some ex ->
        (exists k, k <> "id" /\ is_Some (data !! k)) ->
        storeFault env (S (S (S (tick w)))) = None ->
        exists u w',
          updateLocal env this id data w = (inr u, w')
          /\ u !! "id" = Some id
          /\ u !! "updated_at" = Some (VTime now)
          /\ (forall k, k <> "id" -> k <> "updated_at" ->
                u !! k = match data !! k with
                         | Some v => Some v
                         | None => ex !! k
                         end)
          /\ (forall t0, getTime (dateParse env) (ex !! "updated_at") = Some t0 ->
                numGt (getTime (dateParse env) (u !! "updated_at")) (Some t0) = true
                <-> t0 < now)
          /\ table (tableName this) w'
             = (fun r => if sqlEq (r !! "id") id
                         then <["updated_at" := VTime (clockAt env (S (S (tick w))))]>
                                ((sqlValue <$> delete "id" data) ∪ r)
                         else r) <$> table (tableName this) w).
Proof.
  intros live now. subst live now. split.
  - split.
    + intros Hnf.
      destruct (storeFault env (tick w)) as [msg|] eqn:Hsel.
      { by rewrite (updateLocal_select_fault _ _ _ _ _ msg) in Hnf. }
      split; [done|].
      destruct (head (List.filter (whereLive id) (table (tableName this) w)))
        as [ex|] eqn:Hex; [exfalso|done].
      destruct (decide (filter (fun k => k <> "id") (objectKeys data) = []))
        as [Hc|Hc].
      { by rewrite (updateLocal_malformed _ _ _ _ _ ex) in Hnf. }
      destruct (storeFault env (S (S (S (tick w))))) as [msg|] eqn:Hexe.
      { by rewrite (updateLocal_execute_fault _ _ _ _ _ ex msg) in Hnf. }
      by rewrite (updateLocal_run _ _ _ _ _ ex) in Hnf.
    + intros [Hsel Hnone]. by rewrite updateLocal_missing.
  - intros ex Hsel Hex Hk Hexe. eexists _, _.
    split; [apply (updateLocal_run _ _ _ _ _ ex); auto using cols_nonempty|].
    rewrite table_setTable.
    split; [by rewrite lookup_insert_ne, lookup_insert_eq|].
    split; [by rewrite lookup_insert_eq|].
    split; [|split; [|done]].
    + intros k Hid Hu. rewrite !lookup_insert_ne by done.
      rewrite lookup_union. by destruct (data !! k), (ex !! k).
    + intros t0 _. rewrite lookup_insert_eq. cbn. apply Z.ltb_lt.
Qed.

Lemma updateLocal_contract_witness :
  exists u w',
    updateLocal calmEnv todos (VStr "a1") {[ "title" := VStr "Z" ]} sampleWorld
    = (inr u, w')
    /\ u !! "id" = Some (VStr "a1")
    /\ u !! "title" = Some (VStr "Z")
    /\ u !! "updated_at" = Some (VTime 1001).
Proof.
  destruct (updateLocal_contract calmEnv todos (VStr "a1")
              {[ "title" := VStr "Z" ]} sampleWorld) as [_ H].
  destruct (H rowA1 eq_refl eq_refl) as (u & w' & Hrun & Hid & Hu & Hm & _).
  - exists "title". split; [discriminate|]. by exists (VStr "Z").
  - reflexivity.
  - exists u, w'. split; [exact Hrun|]. split; [exact Hid|].
    split; [|exact Hu]. rewrite Hm by discriminate. reflexivity.
Defined.

(** C4 as stated fails twice.  A row of that id exists but is soft-deleted:
    the call raises the not-found error.  The clock has not advanced since
    the row was last written: the returned [updated_at] equals the previous
    one instead of exceeding it. *)
Lemma updateLocal_deleted_row_or_same_instant :
  (existsb (fun r => sqlEq (r !! "id") (VStr "a1")) (table "todos" goneWorld) = true
   /\ (updateLocal calmEnv todos (VStr "a1") {[ "title" := VStr "Z" ]} goneWorld).1
      = inl (NotFound (VStr "a1")))
  /\ (head (table "todos" sampleWorld) = Some rowA1
      /\ rowA1 !! "updated_at" = Some (VTime 600)
      /\ (updateLocal frozenEnv todos (VStr "a1") {[ "title" := VStr "Z" ]}
            sampleWorld).1
         = inr ({[ "id" := VStr "a1"; "title" := VStr "Z";
                   "updated_at" := VTime 600 ]} : Row)
      /\ numGt (getTime (dateParse frozenEnv) (Some (VTime 600)))
               (getTime (dateParse frozenEnv) (rowA1 !! "updated_at"))
         = false).
Proof. repeat split; vm_compute; reflexivity. Qed.

(** ** The sync pass: what cannot raise, what the result keeps *)

Lemma total_ret {S A} (a : A) : total (S := S) (ret a).
Proof. intros s. by eexists _, _. Qed.

Lemma total_modify {S} (f : S -> S) : total (modify f).
Proof. intros s. by eexists _, _. Qed.

Lemma total_bind {S A B} (m : M S A) (k : A -> M S B) :
  total m -> (forall a, total (k a)) -> total (bind m k).
Proof.
  intros Hm Hk s. destruct (Hm s) as (a & s' & Hs). unfold bind. rewrite Hs.
  apply Hk.
Qed.

Lemma total_tryCatch {S A} (m : M S A) (h : exn -> M S A) :
  (forall e, total (h e)) -> total (tryCatch m h).
Proof.
  intros Hh s. unfold tryCatch. destruct (m s) as [[e|a] s'].
  - apply Hh.
  - by eexists _, _.
Qed.

Lemma total_forEach {S A} (l : list A) (body : A -> M S unit) :
  (forall x, total (body x)) -> total (forEach l body).
Proof.
  intros Hb. induction l as [|x l IH]; cbn.
  - apply total_ret.
  - apply total_bind; [apply Hb|]. by intros _.
Qed.

Lemma keeps_ret {A} P (a : A) : keeps P (ret a).
Proof. by intros s. Qed.

Lemma keeps_throw {A} P (e : exn) : keeps P (throw (A := A) e).
Proof. by intros s. Qed.

Lemma keeps_liftW {A} P (m : M World A) : keeps P (liftW m).
Proof. intros [w r] Hr. unfold liftW. cbn. by destruct (m w). Qed.

Lemma keeps_tell P f : (forall r, P r -> P (f r)) -> keeps P (tell f).
Proof. intros Hf [w r] Hr. cbn. by apply Hf. Qed.

Lemma keeps_bind {A B} P (m : M _ A) (k : A -> M _ B) :
  keeps P m -> (forall a, keeps P (k a)) -> keeps P (bind m k).
Proof.
  intros Hm Hk s Hs. unfold bind. specialize (Hm s Hs).
  destruct (m s) as [[e|a] s']; [done|]. by apply Hk.
Qed.

Lemma keeps_tryCatch {A} P (m : M _ A) (h : exn -> M _ A) :
  keeps P m -> (forall e, keeps P (h e)) -> keeps P (tryCatch m h).
Proof.
  intros Hm Hh s Hs. unfold tryCatch. specialize (Hm s Hs).
  destruct (m s) as [[e|a] s']; [|done]. by apply Hh.
Qed.

Lemma keeps_forEach {A} P (l : list A) (body : A -> M _ unit) :
  (forall x, keeps P (body x)) -> keeps P (forEach l body).
Proof.
  intros Hb. induction l as [|x l IH]; cbn.
  - apply keeps_ret.
  - apply keeps_bind; [apply Hb|]. by intros _.
Qed.




Lemma syncPass_total env this : total (syncPass env this).
Proof.
  apply total_tryCatch. intros e.
  apply total_bind; [apply total_modify|]. intros _. apply total_modify.
Qed.

Lemma syncWithRemote_total env this : total (syncWithRemote env this).
Proof.
  intros w. unfold syncWithRemote.
  destruct (negb _ || negb _); [by eexists _, _|].
  destruct (syncPass_total env this (w, emptyResult)) as ([] & [w' r] & Hs).
  rewrite Hs. by eexists _, _.
Qed.

Section Keeps.
Context (P : SyncResult -> Prop).
Hypothesis P_incUpdated : forall r, P r -> P (incUpdated r).
Hypothesis P_incCreated : forall r, P r -> P (incCreated r).
Hypothesis P_pushError : forall e r, P r -> P (pushError e r).
Hypothesis P_setFailed : forall r, P r -> P (setFailed r).
Hypothesis P_pushConflict :
  forall c r, conflict_type c = Update -> P r -> P (pushConflict c r).

Lemma keeps_handler (e : SyncError) :
  keeps P (bind (tell (pushError e)) (fun _ => tell setFailed)).
Proof.
  apply keeps_bind; [apply keeps_tell; auto|]. intros _.
  apply keeps_tell; auto.
Qed.

Lemma pushBody_keeps env this item : keeps P (pushBody env this item).
Proof.
  apply keeps_bind.
  - unfold pushWrite. destruct (truthy _).
    + apply keeps_bind; [apply keeps_liftW|]. intros _.
      apply keeps_tell; auto.
    + apply keeps_bind; [apply keeps_liftW|]. intros [ri|].
      * apply keeps_bind; [apply keeps_liftW|]. intros _.
        apply keeps_tell; auto.
      * apply keeps_ret.
  - intros _. apply keeps_bind; [apply keeps_liftW|]. intros ts.
    apply keeps_bind; [apply keeps_liftW|]. intros _. apply keeps_ret.
Qed.

Lemma pushItem_keeps env this item : keeps P (pushItem env this item).
Proof.
  apply keeps_tryCatch; [apply pushBody_keeps|intros e; apply keeps_handler].
Qed.

Lemma pullBody_keeps env this remoteItem : keeps P (pullBody env this remoteItem).
Proof.
  apply keeps_bind; [apply keeps_liftW|]. intros [li|].
  - destruct (hasConflict env li remoteItem).
    + apply keeps_tell. intros r. by apply P_pushConflict.
    + apply keeps_bind; [apply keeps_liftW|]. intros _.
      apply keeps_tell; auto.
  - apply keeps_bind; [apply keeps_liftW|]. intros id.
    apply keeps_bind; [apply keeps_liftW|]. intros _.
    apply keeps_tell; auto.
Qed.

Lemma pullItem_keeps env this remoteItem : keeps P (pullItem env this remoteItem).
Proof.
  apply keeps_tryCatch; [apply pullBody_keeps|intros e; apply keeps_handler].
Qed.

Lemma pullElement_keeps env this element :
  keeps P (pullElement env this element).
Proof. destruct element; [apply pullItem_keeps|apply keeps_throw]. Qed.

Lemma syncPass_keeps env this : keeps P (syncPass env this).
Proof.
  apply keeps_tryCatch.
  - apply keeps_bind; [apply keeps_liftW|]. intros localChanges.
    apply keeps_bind; [apply keeps_forEach; intros x; apply pushItem_keeps|].
    intros _. apply keeps_bind; [apply keeps_liftW|]. intros [items|truthy].
    + apply keeps_forEach. intros x. apply pullElement_keeps.
    + apply keeps_throw.
  - intros e. apply keeps_bind; [apply keeps_tell; auto|]. intros _.
    apply keeps_tell; auto.
Qed.
End Keeps.

(** C9: every result of [syncWithRemote] has [deleted] equal to 0, and every
    conflict in it is of the update kind. *)
Theorem syncWithRemote_updates_only env this w :
  exists r w',
    syncWithRemote env this w = (inr r, w')
    /\ deleted r = 0%nat
    /\ Forall (fun c => conflict_type c = Update) (conflicts r).
Proof.
  unfold syncWithRemote.
  destruct (negb _ || negb _).
  { eexists _, _. split; [reflexivity|]. by split. }
  destruct (syncPass_total env this (w, emptyResult)) as ([] & [w' r] & Hs).
  assert (updatesOnly r) as [Hd Hc].
  { pose proof (syncPass_keeps updatesOnly) as Hk.
    change r with (inr tt : exn + unit, (w', r)).2.2. rewrite <- Hs.
    apply Hk.
    - by intros r0 [? ?].
    - by intros r0 [? ?].
    - by intros e r0 [? ?].
    - by intros r0 [? ?].
    - intros c r0 Hu [? ?]. split; [done|]. cbn.
      apply Forall_app. split; [done|]. by constructor.
    - by split. }
  rewrite Hs. by eexists _, _.
Qed.









(** ** The steps of the push and pull loops *)

Lemma updateRemote_db env this id data w :
  db (updateRemote env this id data w).2 = db w.
Proof.
  unfold updateRemote. destruct (negb _); [done|].
  by destruct (fetchPut _ _ _ _ _).
Qed.

Lemma saveRemote_db env this data w :
  db (saveRemote env this data w).2 = db w.
Proof.
  unfold saveRemote. destruct (negb _); [done|].
  by destruct (fetchPost _ _ _ _).
Qed.

Lemma pushWrite_update_raises env this item w res e w1 :
  truthy (item !! "remote_id") = true ->
  updateRemote env this (field "remote_id" item) item w = (inl e, w1) ->
  pushWrite env this item (w, res) = (inl e, (w1, res)).
Proof.
  intros Ht Hr. unfold pushWrite. rewrite Ht.
  unfold bind, liftW. cbn [fst snd]. by rewrite Hr.
Qed.

Lemma pushWrite_update_done env this item w res body w1 :
  truthy (item !! "remote_id") = true ->
  updateRemote env this (field "remote_id" item) item w = (inr body, w1) ->
  pushWrite env this item (w, res) = (inr tt, (w1, incUpdated res)).
Proof.
  intros Ht Hr. unfold pushWrite. rewrite Ht.
  unfold bind, liftW. cbn [fst snd]. by rewrite Hr.
Qed.

Lemma pushWrite_save_raises env this item w res e w1 :
  truthy (item !! "remote_id") = false ->
  saveRemote env this item w = (inl e, w1) ->
  pushWrite env this item (w, res) = (inl e, (w1, res)).
Proof.
  intros Ht Hr. unfold pushWrite. rewrite Ht.
  unfold bind, liftW. cbn [fst snd]. by rewrite Hr.
Qed.

Lemma pushWrite_save_done env this item w res ri w1 :
  truthy (item !! "remote_id") = false ->
  saveRemote env this item w = (inr (Some ri), w1) ->
  pushWrite env this item (w, res)
  = match updateLocal env this (field "id" item)
            {["remote_id" := field "id" ri]} w1 with
    | (inr _, w2) => (inr tt, (w2, incCreated res))
    | (inl e, w2) => (inl e, (w2, res))
    end.
Proof.
  intros Ht Hr. unfold pushWrite. rewrite Ht.
  unfold bind, liftW. cbn [fst snd]. rewrite Hr.
  by destruct (updateLocal _ _ _ _ _) as [[e|u] w2].
Qed.

Lemma pushItem_write_raises env this item s e s1 :
  pushWrite env this item s = (inl e, s1) ->
  pushItem env this item s
  = (inr tt, (s1.1, setFailed (pushError (ItemFailed (field "id" item) e) s1.2))).
Proof.
  intros Hw. unfold pushItem, tryCatch, pushBody, bind at 1. by rewrite Hw.
Qed.

Lemma pushItem_write_done env this item s w1 res1 :
  pushWrite env this item s = (inr tt, (w1, res1)) ->
  pushItem env this item s
  = match updateLocal env this (field "id" item)
            {["last_sync_at" := VTime (clockAt env (tick w1))]} (next w1) with
    | (inr _, w2) => (inr tt, (w2, res1))
    | (inl e, w2) =>
        (inr tt, (w2, setFailed (pushError (ItemFailed (field "id" item) e) res1)))
    end.
Proof.
  intros Hw. unfold pushItem, tryCatch, pushBody, bind at 1. rewrite Hw.
  unfold bind, liftW, getCurrentTimestamp. cbn [fst snd].
  by destruct (updateLocal _ _ _ _ _) as [[e|u] w2].
Qed.

Lemma pullItem_found env this remoteItem w res li :
  storeFault env (tick w) = None ->
  head (List.filter (whereRemoteId (field "id" remoteItem))
          (table (tableName this) w)) = Some li ->
  pullItem env this remoteItem (w, res)
  = if hasConflict env li remoteItem then
      (inr tt, (next w, pushConflict {| c_id := field "id" li;
                                        c_table := tableName this;
                                        local_data := li;
                                        remote_data := remoteItem;
                                        conflict_type := Update |} res))
    else
      match updateLocal env this (field "id" li) remoteItem (next w) with
      | (inr _, w2) => (inr tt, (w2, incUpdated res))
      | (inl e, w2) =>
          (inr tt, (w2, setFailed
                          (pushError (MergeFailed (field "id" remoteItem) e) res)))
      end.
Proof.
  intros Hok Hli. unfold pullItem, tryCatch, pullBody, bind at 1.
  unfold liftW at 1, findLocalByRemoteId, bind at 1. cbn [fst snd].
  rewrite select_run by done. unfold ret at 1. rewrite Hli.
  destruct (hasConflict env li remoteItem); [done|].
  unfold bind, liftW. cbn [fst snd].
  by destruct (updateLocal _ _ _ _ _) as [[e|u] w2].
Qed.

Lemma updateRemote_ok env this id data w body :
  configEnabled (remoteConfig this) = true ->
  fetchPut env (tick w) (tableName this) id data = Ok body ->
  updateRemote env this id data w = (inr body, next w).
Proof. intros Hen Hput. unfold updateRemote. rewrite Hen. cbn. by rewrite Hput. Qed.

Lemma saveRemote_ok env this data w body :
  configEnabled (remoteConfig this) = true ->
  fetchPost env (tick w) (tableName this) data = Ok body ->
  saveRemote env this data w = (inr body, next w).
Proof. intros Hen Hpost. unfold saveRemote. rewrite Hen. cbn. by rewrite Hpost. Qed.

(** Every row of an id being soft-deleted, [getLocal] finds none. *)
Lemma no_live_row id (rows : list Row) :
  (forall r, r ∈ rows -> sqlEq (r !! "id") id = true -> notDeleted r = false) ->
  head (List.filter (whereLive id) rows) = None.
Proof.
  intros Hall. induction rows as [|r rows IH]; [done|]. cbn.
  assert (whereLive id r = false) as ->.
  { unfold whereLive. destruct (sqlEq (r !! "id") id) eqn:Hid; [|done].
    rewrite (Hall r); [done|by left|done]. }
  apply IH. intros r' Hin. apply Hall. by right.
Qed.

Lemma stamp_row (ts : value) (r : Row) :
  (sqlValue <$> delete "id" ({["last_sync_at" := ts]} : Row)) ∪ r
  = <["last_sync_at" := sqlValue ts]> r.
Proof.
  rewrite delete_singleton_ne by done. rewrite map_fmap_singleton.
  by rewrite <- insert_union_singleton_l.
Qed.

(** ** Push: the stamp of [last_sync_at] *)

(** C2, as the code has it.  The push loop runs over the rows whose
    [last_sync_at] is null or whose [updated_at] is later than
    [last_sync_at].  When the remote update or the remote create of a record
    raises, the step records the failure and writes nothing: [last_sync_at]
    is not stamped.  When the remote write and the write-back of [remote_id]
    complete, what the stamp does depends on the record: if it is not
    soft-deleted (and the store accepts the statement), the step stamps its
    [last_sync_at] to the reading of the clock (and [updated_at] with it);
    if no row of its id that is not soft-deleted exists, the stamp raises
    the not-found error, the step records it, and [last_sync_at] is left as
    it was.  For such a record the write-back of [remote_id] after a remote
    create raises the same error, before the stamp is reached. *)
Theorem push_stamps_after_remote_write env this item w res :
  (storeFault env (tick w) = None ->
   getLocalChanges env this w
   = (inr (List.filter whereDirty (table (tableName this) w)), next w))
  /\ (forall r : Row, sqlIsNull (r !! "last_sync_at") = true -> whereDirty r = true)
  /\ (forall (r : Row) u s,
        r !! "updated_at" = Some (VTime u) ->
        r !! "last_sync_at" = Some (VTime s) ->
        whereDirty r = true <-> s < u)
  /\ (forall e w1,
        truthy (item !! "remote_id") = true ->
        updateRemote env this (field "remote_id" item) item w = (inl e, w1) ->
        pushItem env this item (w, res)
        = (inr tt, (w1, setFailed (pushError (ItemFailed (field "id" item) e) res)))
        /\ db w1 = db w)
  /\ (forall e w1,
        truthy (item !! "remote_id") = false ->
        saveRemote env this item w = (inl e, w1) ->
        pushItem env this item (w, res)
        = (inr tt, (w1, setFailed (pushError (ItemFailed (field "id" item) e) res)))
        /\ db w1 = db w)
  /\ (forall w1 res1 ex,
        pushWrite env this item (w, res) = (inr tt, (w1, res1)) ->
        storeFault env (S (tick w1)) = None ->
        head (List.filter (whereLive (field "id" item))
                (table (tableName this) w1)) = Some ex ->
        storeFault env (S (S (S (S (tick w1))))) = None ->
        exists w2,
          pushItem env this item (w, res) = (inr tt, (w2, res1))
          /\ table (tableName this) w2
             = (fun r => if sqlEq (r !! "id") (field "id" item)
                         then <["updated_at" := VTime (clockAt env (S (S (S (tick w1)))))]>
                                (<["last_sync_at" := VTime (clockAt env (tick w1))]> r)
                         else r) <$> table (tableName this) w1)
  /\ (forall w1 res1,
        pushWrite env this item (w, res) = (inr tt, (w1, res1)) ->
        storeFault env (S (tick w1)) = None ->
        head (List.filter (whereLive (field "id" item))
                (table (tableName this) w1)) = None ->
        pushItem env this item (w, res)
        = (inr tt,
           ({| db := db w1; app_config := app_config w1;
               tick := S (S (tick w1)) |},
            setFailed (pushError (ItemFailed (field "id" item)
                                    (NotFound (field "id" item))) res1))))
  /\ (forall ri w1,
        truthy (item !! "remote_id") = false ->
        saveRemote env this item w = (inr (Some ri), w1) ->
        storeFault env (tick w1) = None ->
        head (List.filter (whereLive (field "id" item))
                (table (tableName this) w1)) = None ->
        pushItem env this item (w, res)
        = (inr tt,
           ({| db := db w1; app_config := app_config w1; tick := S (tick w1) |},
            setFailed (pushError (ItemFailed (field "id" item)
                                    (NotFound (field "id" item))) res)))).
Proof.
  split; [intros Hok; by apply select_run|].
  split; [intros r Hn; unfold whereDirty; by rewrite Hn|].
  split.
  { intros r u s Hu Hs. unfold whereDirty. rewrite Hu, Hs. cbn.
    apply Z.ltb_lt. }
  split.
  { intros e w1 Ht Hr. split.
    - rewrite (pushItem_write_raises _ _ _ _ e (w1, res)); [done|].
      by apply pushWrite_update_raises.
    - pose proof (updateRemote_db env this (field "remote_id" item) item w) as Hdb.
      by rewrite Hr in Hdb. }
  split.
  { intros e w1 Ht Hr. split.
    - rewrite (pushItem_write_raises _ _ _ _ e (w1, res)); [done|].
      by apply pushWrite_save_raises.
    - pose proof (saveRemote_db env this item w) as Hdb.
      by rewrite Hr in Hdb. }
  split.
  { intros w1 res1 ex Hw Hsel Hex Hexe.
    rewrite (pushItem_write_done _ _ _ _ w1 res1) by done.
    rewrite (updateLocal_run _ _ _ _ _ ex);
      [|exact Hsel|exact Hex| |exact Hexe].
    - eexists. split; [reflexivity|]. rewrite table_setTable.
      apply list_fmap_ext. intros _ r _.
      destruct (sqlEq (r !! "id") (field "id" item)); [|reflexivity].
      by rewrite stamp_row.
    - apply cols_nonempty. exists "last_sync_at". split; [discriminate|].
      rewrite lookup_singleton_eq. by eexists. }
  split.
  { intros w1 res1 Hw Hsel Hnone.
    rewrite (pushItem_write_done _ _ _ _ w1 res1) by done.
    by rewrite updateLocal_missing. }
  intros ri w1 Ht Hr Hsel Hnone.
  rewrite (pushItem_write_raises _ _ _ _ (NotFound (field "id" item))
             (next w1, res)); [done|].
  rewrite (pushWrite_save_done _ _ _ _ _ ri w1) by done.
  by rewrite updateLocal_missing.
Qed.

Lemma push_stamps_after_remote_write_witness :
  (exists w2,
      pushItem calmEnv todos rowDirty (dirtyWorld, emptyResult)
      = (inr tt, (w2, incUpdated emptyResult))
      /\ (fun r => r !! "last_sync_at") <$> table "todos" w2
         = [Some (VTime 1001); None])
  /\ pushItem rejectingEnv todos rowDirty (dirtyWorld, emptyResult)
     = (inr tt, (next dirtyWorld,
                 setFailed
                   (pushError (ItemFailed (VStr "a1")
                                 (RemoteUpdateFailed "Service Unavailable"))
                      emptyResult)))
  /\ pushItem quietEnv todos rowGoneDirty (goneDirtyWorld, emptyResult)
     = (inr tt,
        ({| db := db goneDirtyWorld; app_config := None; tick := 3 |},
         setFailed
           (pushError (ItemFailed (VStr "a1") (NotFound (VStr "a1")))
              (incUpdated emptyResult)))).
Proof.
  split; [|split].
  - destruct (push_stamps_after_remote_write calmEnv todos rowDirty dirtyWorld
                emptyResult) as (_ & _ & _ & _ & _ & H & _ & _).
    destruct (H (next dirtyWorld) (incUpdated emptyResult) rowDirty
                eq_refl eq_refl eq_refl eq_refl) as (w2 & Hrun & Ht).
    exists w2. split; [exact Hrun|].
    change (tableName todos) with "todos" in Ht. rewrite Ht. reflexivity.
  - destruct (push_stamps_after_remote_write rejectingEnv todos rowDirty
                dirtyWorld emptyResult) as (_ & _ & _ & H & _).
    exact (proj1 (H (RemoteUpdateFailed "Service Unavailable") (next dirtyWorld)
                    eq_refl eq_refl)).
  - destruct (push_stamps_after_remote_write quietEnv todos rowGoneDirty
                goneDirtyWorld emptyResult) as (_ & _ & _ & _ & _ & _ & H & _).
    exact (H (next goneDirtyWorld) (incUpdated emptyResult)
             eq_refl eq_refl eq_refl).
Defined.

(** C2 as stated fails twice.  When the remote service rejects the update
    of one dirty record and the creation of another, the pass leaves
    [last_sync_at] of both unset.  And when the remote service accepts the
    update of a dirty record that is soft-deleted, the stamp that follows
    raises the not-found error: the pass counts the update, records the
    failure, and leaves [last_sync_at] at the previous synchronisation. *)
Lemma push_failure_leaves_last_sync_at :
  (List.filter whereDirty (table "todos" dirtyWorld) = [rowDirty; rowNew]
   /\ (syncWithRemote rejectingEnv todos dirtyWorld).1
      = inr {| success := false; conflicts := []; updated := 0; created := 0;
               deleted := 0;
               errors := [ItemFailed (VStr "a1")
                            (RemoteUpdateFailed "Service Unavailable");
                          ItemFailed (VStr "a2")
                            (RemoteSaveFailed "Service Unavailable")] |}
   /\ table "todos" (syncWithRemote rejectingEnv todos dirtyWorld).2
      = [rowDirty; rowNew]
   /\ rowDirty !! "last_sync_at" = None
   /\ rowNew !! "last_sync_at" = None)
  /\ (List.filter whereDirty (table "todos" goneDirtyWorld) = [rowGoneDirty]
      /\ (updateRemote quietEnv todos (VStr "r9") rowGoneDirty
            (next goneDirtyWorld)).1 = inr (Some rowGoneDirty)
      /\ (syncWithRemote quietEnv todos goneDirtyWorld).1
         = inr {| success := false; conflicts := []; updated := 1; created := 0;
                  deleted := 0;
                  errors := [ItemFailed (VStr "a1") (NotFound (VStr "a1"))] |}
      /\ table "todos" (syncWithRemote quietEnv todos goneDirtyWorld).2
         = [rowGoneDirty]
      /\ rowGoneDirty !! "last_sync_at" = Some (VTime 601)).
Proof. repeat split; vm_compute; reflexivity. Qed.

(** ** Pull: conflict or merge *)

(** The instant [hasConflict] takes for the last synchronisation. *)
Lemma syncTime_instant env (li : Row) st :
  (truthy (li !! "last_sync_at") = true
   /\ getTime (dateParse env) (li !! "last_sync_at") = Some st)
  \/ (truthy (li !! "last_sync_at") = false /\ st = 0) ->
  (if truthy (li !! "last_sync_at")
   then getTime (dateParse env) (li !! "last_sync_at") else Some 0) = Some st.
Proof. by intros [[-> ->]|[-> ->]]. Qed.

Lemma hasConflict_instants env (li ri : Row) lt rt st :
  getTime (dateParse env) (li !! "updated_at") = Some lt ->
  getTime (dateParse env) (ri !! "updated_at") = Some rt ->
  (truthy (li !! "last_sync_at") = true
   /\ getTime (dateParse env) (li !! "last_sync_at") = Some st)
  \/ (truthy (li !! "last_sync_at") = false /\ st = 0) ->
  hasConflict env li ri = true <-> st < lt /\ st < rt /\ lt <> rt.
Proof.
  intros Hl Hr Hs. unfold hasConflict.
  rewrite Hl, Hr, (syncTime_instant env li st Hs).
  cbn. rewrite !andb_true_iff, negb_true_iff, !Z.ltb_lt, Z.eqb_neq. tauto.
Qed.

Lemma hasConflict_no_date env (li ri : Row) :
  getTime (dateParse env) (li !! "updated_at") = None
  \/ getTime (dateParse env) (ri !! "updated_at") = None
  \/ (truthy (li !! "last_sync_at") = true
      /\ getTime (dateParse env) (li !! "last_sync_at") = None) ->
  hasConflict env li ri = false.
Proof.
  unfold hasConflict. intros [->|[->|[-> ->]]].
  - done.
  - by rewrite andb_false_r.
  - destruct (getTime _ (li !! "updated_at")); [|done].
    by destruct (getTime _ (ri !! "updated_at")).
Qed.

(** C1, as the code has it.  For a remote record whose id is the
    [remote_id] of a local row (the first such row), the conflict test reads
    the three timestamps as [Date] does, whatever their format.  When all
    three are dates, it holds exactly when the local and the remote
    [updated_at] are both later than the local [last_sync_at] (the epoch
    when there is none) and differ; when one of them is no date, it does not
    hold.  The step appends a conflict exactly when the test holds: then it
    appends exactly one, of the update kind, for the pair, and does not
    write to the store, so that the local row is as the step found it.
    When the test does not hold, the step calls
    [updateLocal] with the remote record: if the local row is not
    soft-deleted and the store accepts the statement, the remote properties
    other than [id] are written over the row and [updated] is incremented;
    if no row of that id that is not soft-deleted exists, the call raises
    the not-found error, the step records it, and neither the row nor
    [updated] changes. *)
Theorem pull_conflict_or_merge env this remoteItem w res li :
  storeFault env (tick w) = None ->
  head (List.filter (whereRemoteId (field "id" remoteItem))
          (table (tableName this) w)) = Some li ->
  (forall lt rt st,
      getTime (dateParse env) (li !! "updated_at") = Some lt ->
      getTime (dateParse env) (remoteItem !! "updated_at") = Some rt ->
      (truthy (li !! "last_sync_at") = true
       /\ getTime (dateParse env) (li !! "last_sync_at") = Some st)
      \/ (truthy (li !! "last_sync_at") = false /\ st = 0) ->
      hasConflict env li remoteItem = true <-> st < lt /\ st < rt /\ lt <> rt)
  /\ (getTime (dateParse env) (li !! "updated_at") = None
      \/ getTime (dateParse env) (remoteItem !! "updated_at") = None
      \/ (truthy (li !! "last_sync_at") = true
          /\ getTime (dateParse env) (li !! "last_sync_at") = None) ->
      hasConflict env li remoteItem = false)
  /\ (hasConflict env li remoteItem = true ->
      pullItem env this remoteItem (w, res)
      = (inr tt,
         ({| db := db w; app_config := app_config w; tick := S (tick w) |},
          {| success := success res;
             conflicts := conflicts res ++ [{| c_id := field "id" li;
                                               c_table := tableName this;
                                               local_data := li;
                                               remote_data := remoteItem;
                                               conflict_type := Update |}];
             updated := updated res; created := created res;
             deleted := deleted res; errors := errors res |})))
  /\ (hasConflict env li remoteItem = false ->
      storeFault env (S (tick w)) = None ->
      (forall ex,
          head (List.filter (whereLive (field "id" li))
                  (table (tableName this) w)) = Some ex ->
          (exists k, k <> "id" /\ is_Some (remoteItem !! k)) ->
          storeFault env (S (S (S (S (tick w))))) = None ->
          exists w2,
            pullItem env this remoteItem (w, res) = (inr tt, (w2, incUpdated res))
            /\ table (tableName this) w2
               = (fun r => if sqlEq (r !! "id") (field "id" li)
                           then <["updated_at" :=
                                    VTime (clockAt env (S (S (S (tick w)))))]>
                                  ((sqlValue <$> delete "id" remoteItem) ∪ r)
                           else r) <$> table (tableName this) w)
      /\ (head (List.filter (whereLive (field "id" li))
                  (table (tableName this) w)) = None ->
          pullItem env this remoteItem (w, res)
          = (inr tt,
             (next (next w),
              setFailed (pushError (MergeFailed (field "id" remoteItem)
                                      (NotFound (field "id" li))) res)))))
  /\ conflicts (pullItem env this remoteItem (w, res)).2.2
     = (conflicts res
        ++ if hasConflict env li remoteItem
           then [{| c_id := field "id" li;
                    c_table := tableName this;
                    local_data := li;
                    remote_data := remoteItem;
                    conflict_type := Update |}]
           else [])%list.
Proof.
  intros Hok Hli.
  split; [intros lt rt st; by apply hasConflict_instants|].
  split; [apply hasConflict_no_date|].
  split.
  { intros Hc. rewrite (pullItem_found _ _ _ _ _ li) by done. by rewrite Hc. }
  split.
  { intros Hc Hsel. split.
    - intros ex Hex Hk Hexe.
      rewrite (pullItem_found _ _ _ _ _ li) by done. rewrite Hc.
      rewrite (updateLocal_run _ _ _ _ _ ex);
        [|exact Hsel|exact Hex|by apply cols_nonempty|exact Hexe].
      eexists. split; [reflexivity|]. by rewrite table_setTable.
    - intros Hnone.
      rewrite (pullItem_found _ _ _ _ _ li) by done. rewrite Hc.
      by rewrite updateLocal_missing. }
  rewrite (pullItem_found _ _ _ _ _ li) by done.
  destruct (hasConflict env li remoteItem); [done|].
  destruct (updateLocal _ _ _ _ _) as [[e|u] w2]; cbn; by rewrite app_nil_r.
Qed.

Lemma pull_conflict_or_merge_witness :
  pullItem calmEnv todos remoteR9 (editedWorld, emptyResult)
  = (inr tt,
     (next editedWorld,
      pushConflict {| c_id := VStr "a1"; c_table := "todos";
                      local_data := rowEdited; remote_data := remoteR9;
                      conflict_type := Update |} emptyResult))
  /\ pullItem calmEnv todos remoteR9Text (editedWorld, emptyResult)
     = (inr tt,
        (next editedWorld,
         pushConflict {| c_id := VStr "a1"; c_table := "todos";
                         local_data := rowEdited; remote_data := remoteR9Text;
                         conflict_type := Update |} emptyResult))
  /\ exists w2,
      pullItem calmEnv todos remoteR9 (syncedWorld, emptyResult)
      = (inr tt, (w2, incUpdated emptyResult))
      /\ (fun r => r !! "title") <$> table "todos" w2 = [Some (VStr "Y")].
Proof.
  split; [|split].
  - destruct (pull_conflict_or_merge calmEnv todos remoteR9 editedWorld
                emptyResult rowEdited eq_refl eq_refl) as (_ & _ & H & _).
    exact (H eq_refl).
  - destruct (pull_conflict_or_merge calmEnv todos remoteR9Text editedWorld
                emptyResult rowEdited eq_refl eq_refl) as (Hiff & _ & H & _).
    apply H.
    apply (Hiff 603 1704189900000 601 eq_refl eq_refl).
    + left. by split.
    + lia.
  - destruct (pull_conflict_or_merge calmEnv todos remoteR9 syncedWorld
                emptyResult rowSynced eq_refl eq_refl) as (_ & _ & _ & H & _).
    destruct (H eq_refl eq_refl) as [Hm _].
    destruct (Hm rowSynced eq_refl) as (w2 & Hrun & Ht).
    + exists "title". split; [discriminate|]. by exists (VStr "Y").
    + reflexivity.
    + exists w2. split; [exact Hrun|].
      change (tableName todos) with "todos" in Ht. rewrite Ht. reflexivity.
Defined.

(** C1 as stated fails twice.  The remote record r9 matches a local row
    that is soft-deleted and the conflict test does not hold, yet the pass
    neither applies the remote properties nor increments [updated].  And a
    record for which the pull phase emits its one conflict has been written
    during that pass all the same: the push phase, which comes first, has
    sent it and stamped it, and it is the stamped row that the conflict test
    compares with the remote record. *)
Lemma pull_merge_into_deleted_row_fails :
  (head (List.filter (whereRemoteId (VStr "r9")) (table "todos" goneWorld))
   = Some rowGone
   /\ hasConflict calmEnv rowGone remoteR9 = false
   /\ (syncWithRemote calmEnv todos goneWorld).1
      = inr {| success := false; conflicts := []; updated := 0; created := 0;
               deleted := 0;
               errors := [MergeFailed (VStr "r9") (NotFound (VStr "a1"))] |}
   /\ table "todos" (syncWithRemote calmEnv todos goneWorld).2 = [rowGone])
  /\ (table "todos" linkedWorld = [rowDirty]
      /\ (syncWithRemote aheadEnv todos linkedWorld).1
         = inr {| success := true;
                  conflicts := [{| c_id := VStr "a1"; c_table := "todos";
                                   local_data := rowPushed;
                                   remote_data := remoteR9Text;
                                   conflict_type := Update |}];
                  updated := 1; created := 0; deleted := 0; errors := [] |}
      /\ hasConflict aheadEnv rowPushed remoteR9Text = true
      /\ table "todos" (syncWithRemote aheadEnv todos linkedWorld).2 = [rowPushed]
      /\ rowPushed <> rowDirty).
Proof. repeat split; try (vm_compute; reflexivity). by vm_compute. Qed.

(** ** Write-backs that target a soft-deleted record *)

(** C8: the selection of dirty rows and the lookup by [remote_id] do not
    look at [is_deleted], while [updateLocal] finds only rows that are not
    soft-deleted.  So when every row of the record's id is soft-deleted, each
    write-back of a sync pass (the stamp of [last_sync_at] after a push, the
    write of [remote_id] after a remote create, the merge of a remote record
    in the pull phase) raises the not-found error; the step records it as an
    error of that record, sets [success] to false, and the store is left as
    it was. *)
Theorem writeback_to_deleted_record env this w res :
  (forall (r : Row) v, whereDirty (<["is_deleted" := v]> r) = whereDirty r)
  /\ (forall rid (r : Row) v,
        whereRemoteId rid (<["is_deleted" := v]> r) = whereRemoteId rid r)
  /\ (forall item w1 res1,
        pushWrite env this item (w, res) = (inr tt, (w1, res1)) ->
        storeFault env (S (tick w1)) = None ->
        (forall r, r ∈ table (tableName this) w1 ->
                   sqlEq (r !! "id") (field "id" item) = true ->
                   notDeleted r = false) ->
        pushItem env this item (w, res)
        = (inr tt,
           ({| db := db w1; app_config := app_config w1; tick := S (S (tick w1)) |},
            setFailed (pushError (ItemFailed (field "id" item)
                                    (NotFound (field "id" item))) res1))))
  /\ (forall item body,
        configEnabled (remoteConfig this) = true ->
        truthy (item !! "remote_id") = true ->
        fetchPut env (tick w) (tableName this) (field "remote_id" item) item
        = Ok body ->
        storeFault env (S (S (tick w))) = None ->
        (forall r, r ∈ table (tableName this) w ->
                   sqlEq (r !! "id") (field "id" item) = true ->
                   notDeleted r = false) ->
        pushItem env this item (w, res)
        = (inr tt,
           ({| db := db w; app_config := app_config w; tick := S (S (S (tick w))) |},
            setFailed (pushError (ItemFailed (field "id" item)
                                    (NotFound (field "id" item)))
                         (incUpdated res)))))
  /\ (forall item ri,
        configEnabled (remoteConfig this) = true ->
        truthy (item !! "remote_id") = false ->
        fetchPost env (tick w) (tableName this) item = Ok (Some ri) ->
        storeFault env (S (tick w)) = None ->
        (forall r, r ∈ table (tableName this) w ->
                   sqlEq (r !! "id") (field "id" item) = true ->
                   notDeleted r = false) ->
        pushItem env this item (w, res)
        = (inr tt,
           ({| db := db w; app_config := app_config w; tick := S (S (tick w)) |},
            setFailed (pushError (ItemFailed (field "id" item)
                                    (NotFound (field "id" item))) res))))
  /\ (forall remoteItem li,
        storeFault env (tick w) = None ->
        head (List.filter (whereRemoteId (field "id" remoteItem))
                (table (tableName this) w)) = Some li ->
        hasConflict env li remoteItem = false ->
        storeFault env (S (tick w)) = None ->
        (forall r, r ∈ table (tableName this) w ->
                   sqlEq (r !! "id") (field "id" li) = true ->
                   notDeleted r = false) ->
        pullItem env this remoteItem (w, res)
        = (inr tt,
           ({| db := db w; app_config := app_config w; tick := S (S (tick w)) |},
            setFailed (pushError (MergeFailed (field "id" remoteItem)
                                    (NotFound (field "id" li))) res)))).
Proof.
  split.
  { intros r v. unfold whereDirty. by rewrite !lookup_insert_ne. }
  split.
  { intros rid r v. unfold whereRemoteId. by rewrite lookup_insert_ne. }
  assert (Hstamp : forall item w1 res1,
             pushWrite env this item (w, res) = (inr tt, (w1, res1)) ->
             storeFault env (S (tick w1)) = None ->
             (forall r, r ∈ table (tableName this) w1 ->
                        sqlEq (r !! "id") (field "id" item) = true ->
                        notDeleted r = false) ->
             pushItem env this item (w, res)
             = (inr tt,
                ({| db := db w1; app_config := app_config w1;
                    tick := S (S (tick w1)) |},
                 setFailed (pushError (ItemFailed (field "id" item)
                                         (NotFound (field "id" item))) res1)))).
  { intros item w1 res1 Hw Hsel Hgone.
    rewrite (pushItem_write_done _ _ _ _ w1 res1) by done.
    rewrite updateLocal_missing; [done|exact Hsel|].
    by apply no_live_row. }
  split; [exact Hstamp|].
  split.
  { intros item body Hen Ht Hput Hsel Hgone.
    apply (Hstamp item (next w) (incUpdated res)); [|exact Hsel|exact Hgone].
    apply (pushWrite_update_done _ _ _ _ _ body); [done|].
    by apply updateRemote_ok. }
  split.
  { intros item ri Hen Ht Hpost Hsel Hgone.
    rewrite (pushItem_write_raises _ _ _ _ (NotFound (field "id" item))
               (next (next w), res)); [done|].
    rewrite (pushWrite_save_done _ _ _ _ _ ri (next w)); [|done|].
    - rewrite updateLocal_missing; [done|exact Hsel|]. by apply no_live_row.
    - by apply saveRemote_ok. }
  intros remoteItem li Hok Hli Hc Hsel Hgone.
  rewrite (pullItem_found _ _ _ _ _ li) by done. rewrite Hc.
  rewrite updateLocal_missing; [done|exact Hsel|]. by apply no_live_row.
Qed.

Lemma rowGone_only_row r :
  r ∈ table "todos" goneWorld ->
  sqlEq (r !! "id") (VStr "a1") = true -> notDeleted r = false.
Proof.
  intros Hin _. change (table "todos" goneWorld) with [rowGone] in Hin.
  apply list_elem_of_singleton in Hin. subst r. reflexivity.
Defined.

Lemma writeback_to_deleted_record_witness :
  pushItem calmEnv todos rowGone (goneWorld, emptyResult)
  = (inr tt,
     ({| db := db goneWorld; app_config := None; tick := 3 |},
      setFailed (pushError (ItemFailed (VStr "a1") (NotFound (VStr "a1")))
                   (incUpdated emptyResult))))
  /\ pullItem calmEnv todos remoteR9 (goneWorld, emptyResult)
     = (inr tt,
        ({| db := db goneWorld; app_config := None; tick := 2 |},
         setFailed (pushError (MergeFailed (VStr "r9") (NotFound (VStr "a1")))
                      emptyResult))).
Proof.
  destruct (writeback_to_deleted_record calmEnv todos goneWorld emptyResult)
    as (_ & _ & _ & Hpush & _ & Hpull).
  split.
  - exact (Hpush rowGone (Some rowGone) eq_refl eq_refl eq_refl eq_refl
             rowGone_only_row).
  - exact (Hpull remoteR9 rowGone eq_refl eq_refl eq_refl eq_refl
             rowGone_only_row).
Defined.

(** ** DataManager.syncAll *)

(** C6: [syncAll] returns the empty map and touches nothing unless the
    manager's configuration is enabled and has [contentSync] on.  When it is,
    the repositories that exist are synchronised one after the other, users
    first and todos in the world the first pass has left, and the map binds
    the name of each to the result of its pass.  After [setRemoteConfig]
    with a configuration that is not enabled, [syncAll] returns the empty
    map and no table has changed. *)
Theorem syncAll_gated env mgr w :
  (configEnabled (managerConfig mgr) && configContentSync (managerConfig mgr) = false ->
   syncAll env (mgr, w) = (inr ∅, (mgr, w)))
  /\ (configEnabled (managerConfig mgr) && configContentSync (managerConfig mgr) = true ->
      match userRepo mgr, todoRepo mgr with
      | Some users, Some todos =>
          exists r1 w1 r2 w2,
            syncWithRemote env users w = (inr r1, w1)
            /\ syncWithRemote env todos w1 = (inr r2, w2)
            /\ syncAll env (mgr, w)
               = (inr (<["todos" := r2]> (<["users" := r1]> ∅)), (mgr, w2))
      | Some users, None =>
          exists r1 w1,
            syncWithRemote env users w = (inr r1, w1)
            /\ syncAll env (mgr, w) = (inr (<["users" := r1]> ∅), (mgr, w1))
      | None, Some todos =>
          exists r2 w2,
            syncWithRemote env todos w = (inr r2, w2)
            /\ syncAll env (mgr, w) = (inr (<["todos" := r2]> ∅), (mgr, w2))
      | None, None => syncAll env (mgr, w) = (inr ∅, (mgr, w))
      end)
  /\ (forall config,
        enabled config = false ->
        exists mgr' w',
          setRemoteConfig env config (mgr, w) = (inr tt, (mgr', w'))
          /\ db w' = db w
          /\ bind (setRemoteConfig env config) (fun _ => syncAll env) (mgr, w)
             = (inr ∅, (mgr', w'))).
Proof.
  split; [|split].
  - intros Hoff. unfold syncAll. cbn [fst]. by rewrite Hoff.
  - intros Hon. unfold syncAll. cbn [fst]. rewrite Hon.
    destruct (userRepo mgr) as [users|], (todoRepo mgr) as [todos|].
    + destruct (syncWithRemote_total env users w) as (r1 & w1 & H1).
      destruct (syncWithRemote_total env todos w1) as (r2 & w2 & H2).
      exists r1, w1, r2, w2. split; [done|]. split; [done|].
      unfold bind, liftD, ret. cbn [fst snd]. rewrite H1. cbn [fst snd].
      by rewrite H2.
    + destruct (syncWithRemote_total env users w) as (r1 & w1 & H1).
      exists r1, w1. split; [done|].
      unfold bind, liftD, ret. cbn [fst snd]. by rewrite H1.
    + destruct (syncWithRemote_total env todos w) as (r2 & w2 & H2).
      exists r2, w2. split; [done|].
      unfold bind, liftD, ret. cbn [fst snd]. by rewrite H2.
    + done.
  - intros config Hoff.
    assert (forall m' w', managerConfig m' = Some config ->
              syncAll env (m', w') = (inr ∅, (m', w'))) as Hsync.
    { intros m' w' Hm. unfold syncAll. cbn [fst]. rewrite Hm. cbn.
      by rewrite Hoff. }
    unfold bind at 1.
    unfold setRemoteConfig, bind, modify, saveRemoteConfig. cbn [fst snd hasDb].
    destruct (hasDb mgr); cbn [negb].
    + unfold tryCatch, liftD, executeConfig. cbn [fst snd].
      destruct (storeFault env (tick w)); eexists _, _;
        (split; [reflexivity|]); (split; [reflexivity|]); by apply Hsync.
    + eexists _, _. split; [reflexivity|]. split; [reflexivity|].
      by apply Hsync.
Qed.

Lemma syncAll_gated_witness :
  let s := (bind (initialize calmEnv)
              (fun _ => setRemoteConfig calmEnv sampleConfig)
              (newManager, sampleWorld)).2 in
  (exists r1 r2 s', syncAll calmEnv s
                    = (inr (<["todos" := r2]> (<["users" := r1]> ∅)), s'))
  /\ (bind (setRemoteConfig calmEnv offConfig) (fun _ => syncAll calmEnv) s).1
     = inr ∅.
Proof.
  intros s. destruct (syncAll_gated calmEnv s.1 s.2) as (_ & Hon & Hoff).
  split.
  - destruct (Hon eq_refl) as (r1 & w1 & r2 & w2 & _ & _ & Hrun).
    exists r1, r2, (s.1, w2). exact Hrun.
  - destruct (Hoff offConfig eq_refl) as (mgr' & w' & _ & _ & Hrun).
    change (s.1, s.2) with s in Hrun. by rewrite Hrun.
Defined.

(** * Further properties of the repository *)

(** ** Listing and counting *)

Lemma insertDesc_Permutation gt x l : insertDesc gt x l ≡ₚ x :: l.
Proof.
  induction l as [|y l IH]; [done|]. cbn.
  destruct (gt y x); [|done]. rewrite IH. apply Permutation_swap.
Qed.

Lemma orderByDesc_Permutation gt l : orderByDesc gt l ≡ₚ l.
Proof.
  induction l as [|x l IH]; [done|]. cbn.
  rewrite insertDesc_Permutation. by rewrite IH.
Qed.

Lemma elem_of_list_filter_bool (p : Row -> bool) (l : list Row) r :
  r ∈ List.filter p l <-> r ∈ l /\ p r = true.
Proof. rewrite !list_elem_of_In. apply filter_In. Qed.

Lemma sqlLimit_sublist limit offset l r : r ∈ sqlLimit limit offset l -> r ∈ l.
Proof.
  unfold sqlLimit. intros Hin.
  assert (r ∈ drop (Z.to_nat offset) l) as Hd.
  { destruct (limit <? 0); [done|].
    eapply elem_of_sublist; [exact Hin|apply sublist_take]. }
  eapply elem_of_sublist; [exact Hd|apply sublist_drop].
Qed.

Lemma sqlLimit_length limit offset l :
  length (sqlLimit limit offset l)
  = if limit <? 0 then (length l - Z.to_nat offset)%nat
    else (Z.to_nat limit `min` (length l - Z.to_nat offset))%nat.
Proof.
  unfold sqlLimit. destruct (limit <? 0).
  - by rewrite length_drop.
  - by rewrite length_take, length_drop.
Qed.

Lemma listLocal_run env this conditions filter limit offset w :
  storeFault env (tick w) = None ->
  listLocal env this conditions filter limit offset w
  = (inr (sqlLimit (default 50 limit) (default 0 offset)
            (orderByDesc byUpdatedAt
               (List.filter (whereListed conditions filter)
                  (table (tableName this) w)))),
     next w).
Proof. intros Hok. unfold listLocal, bind. by rewrite select_run. Qed.

Lemma countLocal_run env this conditions filter w :
  storeFault env (tick w) = None ->
  countLocal env this conditions filter w
  = (inr (length (List.filter (whereListed conditions filter)
                    (table (tableName this) w))),
     next w).
Proof. intros Hok. unfold countLocal, bind. by rewrite select_run. Qed.

(** X1: when the store answers, [listLocal] returns rows of the table that
    are not soft-deleted and that satisfy the conditions built from the
    filter, leaves the store as it was, and returns at most [limit] rows
    (50 when no limit is given) unless the limit is negative. *)
Theorem listLocal_rows env this conditions filter limit offset w :
  storeFault env (tick w) = None ->
  exists rows,
    listLocal env this conditions filter limit offset w = (inr rows, next w)
    /\ (forall r, r ∈ rows ->
          r ∈ table (tableName this) w
          /\ notDeleted r = true
          /\ (forall f, filter = Some f -> conditions f r = true))
    /\ (0 <= default 50 limit -> Z.of_nat (length rows) <= default 50 limit).
Proof.
  intros Hok. eexists. split; [by apply listLocal_run|]. split.
  - intros r Hin. apply sqlLimit_sublist in Hin.
    rewrite orderByDesc_Permutation in Hin.
    apply elem_of_list_filter_bool in Hin as [Hin Hp].
    unfold whereListed in Hp. apply andb_true_iff in Hp as [Hd Hc].
    split; [done|]. split; [done|]. by intros f ->.
  - intros Hl. rewrite sqlLimit_length.
    destruct (default 50 limit <? 0) eqn:Hneg; [apply Z.ltb_lt in Hneg; lia|].
    lia.
Qed.

(** X2: the listing and the count agree.  With [n] the count for a filter,
    [listLocal] for the same filter returns [min limit (n - offset)] rows,
    and all [n - offset] of them when the limit is negative (a negative
    offset counts as 0). *)
Theorem listLocal_length_countLocal env this conditions filter limit offset w :
  storeFault env (tick w) = None ->
  storeFault env (S (tick w)) = None ->
  exists n rows,
    countLocal env this conditions filter w = (inr n, next w)
    /\ listLocal env this conditions filter limit offset (next w)
       = (inr rows, next (next w))
    /\ length rows
       = let skipped := Z.to_nat (default 0 offset) in
         let wanted := Z.to_nat (default 50 limit) in
         if default 50 limit <? 0
         then (n - skipped)%nat
         else (wanted `min` (n - skipped))%nat.
Proof.
  intros H0 H1. eexists _, _.
  split; [by apply countLocal_run|].
  split; [by apply listLocal_run|].
  rewrite sqlLimit_length. by rewrite (Permutation_length (orderByDesc_Permutation _ _)).
Qed.

(** X3: pages fit together.  On an unchanged table in which no two listed
    rows share their [updated_at] (rows that do have no order of their own
    in the store), the page of [n] rows at offset [o] followed by the page
    of [m] rows at offset [o + n] is the page of [n + m] rows at offset
    [o]: no row is skipped or repeated between consecutive pages. *)
Theorem listLocal_pages env this conditions filter n m o w :
  0 <= n -> 0 <= m -> 0 <= o ->
  NoDup ((fun r : Row => r !! "updated_at")
           <$> List.filter (whereListed conditions filter)
                 (table (tableName this) w)) ->
  storeFault env (tick w) = None ->
  storeFault env (S (tick w)) = None ->
  exists p1 p2 p12,
    listLocal env this conditions filter (Some n) (Some o) w = (inr p1, next w)
    /\ listLocal env this conditions filter (Some m) (Some (o + n)) (next w)
       = (inr p2, next (next w))
    /\ listLocal env this conditions filter (Some (n + m)) (Some o) w
       = (inr p12, next w)
    /\ (p1 ++ p2)%list = p12.
Proof.
  intros Hn Hm Ho _ H0 H1. eexists _, _, _.
  split; [by apply listLocal_run|].
  split; [by apply listLocal_run|].
  split; [by apply listLocal_run|].
  rewrite table_next. cbn [default from_option id]. unfold sqlLimit.
  destruct (n <? 0) eqn:En; [apply Z.ltb_lt in En; lia|].
  destruct (m <? 0) eqn:Em; [apply Z.ltb_lt in Em; lia|].
  destruct (n + m <? 0) eqn:Enm; [apply Z.ltb_lt in Enm; lia|].
  rewrite !Z2Nat.inj_add by lia. rewrite <- drop_drop.
  apply take_take_drop.
Qed.

Lemma byUpdatedAt_instants (a b : Row) ta tb :
  a !! "updated_at" = Some (VTime ta) ->
  b !! "updated_at" = Some (VTime tb) ->
  byUpdatedAt a b = (tb <? ta).
Proof. intros Ha Hb. unfold byUpdatedAt. by rewrite Ha, Hb. Qed.

Lemma insertDesc_newest_first x l :
  (forall y, y ∈ x :: l -> exists t, y !! "updated_at" = Some (VTime t)) ->
  StronglySorted (fun a b => forall ta tb,
                      a !! "updated_at" = Some (VTime ta) ->
                      b !! "updated_at" = Some (VTime tb) -> tb <= ta) l ->
  StronglySorted (fun a b => forall ta tb,
                      a !! "updated_at" = Some (VTime ta) ->
                      b !! "updated_at" = Some (VTime tb) -> tb <= ta)
    (insertDesc byUpdatedAt x l).
Proof.
  intros Hall Hs. induction Hs as [|y l Hs IH Hy]; cbn.
  - by repeat constructor.
  - destruct (Hall x) as [tx Hx]; [by left|].
    destruct (Hall y) as [ty Hty]; [right; by left|].
    rewrite (byUpdatedAt_instants y x ty tx) by done.
    destruct (tx <? ty) eqn:Hlt.
    + apply Z.ltb_lt in Hlt. constructor.
      * apply IH. intros z Hz. apply Hall.
        apply elem_of_cons in Hz as [->|Hz]; [by left|]. right. by right.
      * rewrite insertDesc_Permutation. constructor; [|done].
        intros ta tb Ha Hb. simplify_eq. lia.
    + apply Z.ltb_ge in Hlt. constructor; [by constructor|].
      constructor.
      * intros ta tb Ha Hb. simplify_eq. lia.
      * eapply Forall_impl; [exact Hy|]. intros z Hz ta tb Ha Hb.
        simplify_eq. specialize (Hz ty tb Hty Hb). lia.
Qed.

Lemma orderByDesc_newest_first l :
  (forall y, y ∈ l -> exists t, y !! "updated_at" = Some (VTime t)) ->
  StronglySorted (fun a b => forall ta tb,
                      a !! "updated_at" = Some (VTime ta) ->
                      b !! "updated_at" = Some (VTime tb) -> tb <= ta)
    (orderByDesc byUpdatedAt l).
Proof.
  induction l as [|x l IH]; intros Hall; [constructor|].
  change (orderByDesc byUpdatedAt (x :: l))
    with (insertDesc byUpdatedAt x (orderByDesc byUpdatedAt l)).
  apply insertDesc_newest_first.
  - intros y Hy. apply Hall. by rewrite orderByDesc_Permutation in Hy.
  - apply IH. intros y Hy. apply Hall. by right.
Qed.

Lemma StronglySorted_lookup {A} (R : A -> A -> Prop) (l : list A) i j a b :
  StronglySorted R l -> (i < j)%nat -> l !! i = Some a -> l !! j = Some b -> R a b.
Proof.
  intros Hs. revert i j. induction Hs as [|x l Hs IH Hx]; intros i j Hij Hi Hj.
  - by rewrite lookup_nil in Hi.
  - destruct j as [|j]; [lia|]. destruct i as [|i]; cbn in *.
    + simplify_eq. rewrite Forall_forall in Hx. apply Hx.
      eapply list_elem_of_lookup_2. exact Hj.
    + apply (IH i j); [lia|done|done].
Qed.

Lemma sqlLimit_StronglySorted (R : Row -> Row -> Prop) limit offset l :
  StronglySorted R l -> StronglySorted R (sqlLimit limit offset l).
Proof.
  intros Hs. unfold sqlLimit.
  assert (StronglySorted R (drop (Z.to_nat offset) l)) as Hd.
  { rewrite <- (take_drop (Z.to_nat offset) l) in Hs.
    by apply StronglySorted_app_1_r in Hs. }
  destruct (limit <? 0); [done|].
  rewrite <- (take_drop (Z.to_nat limit) (drop _ l)) in Hd.
  by apply StronglySorted_app_1_l in Hd.
Qed.

(** X4: when every listed row carries a timestamp in [updated_at],
    [listLocal] returns the rows newest first: a row never comes before a
    row whose [updated_at] is later. *)
Theorem listLocal_newest_first env this conditions filter limit offset w :
  storeFault env (tick w) = None ->
  (forall r, r ∈ table (tableName this) w ->
             whereListed conditions filter r = true ->
             exists t, r !! "updated_at" = Some (VTime t)) ->
  exists rows,
    listLocal env this conditions filter limit offset w = (inr rows, next w)
    /\ forall i j a b ta tb,
         (i < j)%nat -> rows !! i = Some a -> rows !! j = Some b ->
         a !! "updated_at" = Some (VTime ta) ->
         b !! "updated_at" = Some (VTime tb) ->
         tb <= ta.
Proof.
  intros Hok Hall. eexists. split; [by apply listLocal_run|].
  intros i j a b ta tb Hij Hi Hj Ha Hb.
  revert ta tb Ha Hb.
  eapply (StronglySorted_lookup
           (fun a b : Row => forall ta tb,
                a !! "updated_at" = Some (VTime ta) ->
                b !! "updated_at" = Some (VTime tb) -> tb <= ta)
           _ i j a b); [|exact Hij|eassumption..].
  apply sqlLimit_StronglySorted, orderByDesc_newest_first.
  intros y [Hy Hp]%elem_of_list_filter_bool. by apply Hall.
Qed.

(** ** Filters *)

Lemma forallb_elem_of {A} (p : A -> bool) (l : list A) :
  forallb p l = true <-> forall x, x ∈ l -> p x = true.
Proof.
  rewrite forallb_forall. split; intros H x Hx; apply H.
  - by apply list_elem_of_In.
  - by apply list_elem_of_In.
Qed.

Lemma buildFilterConditions_iff (filter r : Row) :
  buildFilterConditions filter r = true
  <-> forall key v, filter !! key = Some v -> v <> VNull ->
                    sqlEq (r !! key) v = true.
Proof.
  unfold buildFilterConditions. rewrite forallb_elem_of. split.
  - intros H key v Hv Hnn. unfold field in H.
    specialize (H key). rewrite Hv in H. cbn [default from_option id] in H.
    apply H.
    apply list_elem_of_In, filter_In. split.
    + apply list_elem_of_In, elem_of_objectKeys. by exists v.
    + rewrite Hv. by destruct v.
  - intros H key Hin. apply list_elem_of_In, filter_In in Hin as [Hin Hnn].
    apply list_elem_of_In, elem_of_objectKeys in Hin as [v Hv].
    unfold field. rewrite Hv in Hnn |- *. cbn [default from_option id].
    apply H; [done|]. by intros ->.
Qed.

Lemma filter_ext_bool (p q : Row -> bool) (l : list Row) :
  (forall r, p r = q r) -> List.filter p l = List.filter q l.
Proof. intros H. apply filter_ext. intros r. apply H. Qed.

Lemma listLocal_ext env this c1 c2 f1 f2 limit offset w :
  (forall r, whereListed c1 f1 r = whereListed c2 f2 r) ->
  listLocal env this c1 f1 limit offset w = listLocal env this c2 f2 limit offset w.
Proof.
  intros H. unfold listLocal, bind, select.
  destruct (storeFault env (tick w)); [done|].
  by rewrite (filter_ext_bool _ _ _ H).
Qed.

(** X6: a filter whose properties are all null (the empty object among
    them) lists what no filter lists. *)
Theorem listLocal_null_filter env this (filter : Row) limit offset w :
  (forall key v, filter !! key = Some v -> v = VNull) ->
  listLocal env this buildFilterConditions (Some filter) limit offset w
  = listLocal env this buildFilterConditions None limit offset w.
Proof.
  intros Hnull. apply listLocal_ext. intros r. unfold whereListed. f_equal.
  apply buildFilterConditions_iff. intros key v Hv Hnn.
  by apply Hnull in Hv.
Qed.

(** X7: the filter of the todo repository looks at [user_id], [completed],
    [priority] and [search] only: any other property of the filter (a
    title, say) changes nothing in the listing.  A [user_id] that is empty,
    zero or null is not applied either: the listing is then that of all
    users. *)
Theorem todo_listLocal_ignored_properties env this like (filter : Row)
    limit offset w :
  (forall key v,
      key ∉ ["user_id"; "completed"; "priority"; "search"] ->
      listLocal env this (todoFilterConditions like)
        (Some (<[key := v]> filter)) limit offset w
      = listLocal env this (todoFilterConditions like) (Some filter) limit offset w)
  /\ (truthy (filter !! "user_id") = false ->
      listLocal env this (todoFilterConditions like) (Some filter) limit offset w
      = listLocal env this (todoFilterConditions like)
          (Some (delete "user_id" filter)) limit offset w).
Proof.
  split.
  - intros key v Hk. repeat (apply not_elem_of_cons in Hk as [? Hk]).
    apply listLocal_ext. intros r. unfold whereListed, todoFilterConditions, field.
    by rewrite !lookup_insert_ne by done.
  - intros Hu. apply listLocal_ext. intros r.
    unfold whereListed, todoFilterConditions, field.
    rewrite Hu, lookup_delete_eq. cbn [truthy].
    by rewrite !lookup_delete_ne by done.
Qed.

(** ** Round trips through the store *)

Lemma filter_fmap_preserving (p : Row -> bool) (f : Row -> Row) (rows : list Row) :
  (forall r, r ∈ rows -> p (f r) = p r) ->
  List.filter p (f <$> rows) = f <$> List.filter p rows.
Proof.
  induction rows as [|r rows IH]; intros Hp; [done|]. cbn.
  rewrite (Hp r) by (by left). rewrite IH by (intros r' Hr'; apply Hp; by right).
  by destruct (p r).
Qed.

Lemma head_filter_elem (p : Row -> bool) (rows : list Row) r :
  head (List.filter p rows) = Some r -> r ∈ rows /\ p r = true.
Proof.
  intros Hh. apply elem_of_list_filter_bool.
  destruct (List.filter p rows) as [|r' l]; [done|]. cbn in Hh. simplify_eq.
  by left.
Qed.

Lemma sqlValue_idemp v : sqlValue (sqlValue v) = sqlValue v.
Proof. by destruct v. Qed.

Lemma sqlEq_stored v : sqlValue v <> VNull -> sqlEq (Some (sqlValue v)) v = true.
Proof.
  intros Hnn. unfold sqlEq. rewrite sqlValue_idemp.
  destruct (sqlValue v) eqn:Hv; try done; by rewrite bool_decide_eq_true.
Qed.

Lemma truthy_not_null v : truthy (Some v) = true -> sqlValue v <> VNull.
Proof. by destruct v. Qed.

(** The row that an UPDATE by id writes keeps its id and, unless the
    assignments name [is_deleted], its deletion mark. *)
Lemma merged_row_id (stamp : value) (data r : Row) :
  (<["updated_at" := stamp]> ((sqlValue <$> delete "id" data) ∪ r)) !! "id"
  = r !! "id".
Proof.
  rewrite lookup_insert_ne by done.
  by rewrite lookup_union, lookup_fmap, lookup_delete_eq, (left_id_L None _).
Qed.

Lemma merged_row_other (stamp : value) (data r : Row) k :
  k <> "updated_at" -> data !! k = None ->
  (<["updated_at" := stamp]> ((sqlValue <$> delete "id" data) ∪ r)) !! k = r !! k.
Proof.
  intros Hk Hd. rewrite lookup_insert_ne by done.
  rewrite lookup_union, lookup_fmap.
  destruct (decide (k = "id")) as [->|Hid].
  - by rewrite lookup_delete_eq, (left_id_L None _).
  - by rewrite lookup_delete_ne, Hd, (left_id_L None _).
Qed.

Lemma merged_row_set (stamp : value) (data r : Row) k v :
  k <> "updated_at" -> k <> "id" -> data !! k = Some v ->
  (<["updated_at" := stamp]> ((sqlValue <$> delete "id" data) ∪ r)) !! k
  = Some (sqlValue v).
Proof.
  intros Hk Hid Hd. rewrite lookup_insert_ne by done.
  rewrite lookup_union, lookup_fmap, lookup_delete_ne, Hd by done.
  cbn. by destruct (r !! k).
Qed.

Lemma whereLive_merged (id' stamp : value) (data r : Row) :
  data !! "is_deleted" = None ->
  whereLive id' (<["updated_at" := stamp]> ((sqlValue <$> delete "id" data) ∪ r))
  = whereLive id' r.
Proof.
  intros Hd. unfold whereLive, notDeleted.
  by rewrite merged_row_id, (merged_row_other _ _ _ "is_deleted").
Qed.

Lemma saveLocal_inv env this data w entity w' :
  saveLocal env this data w = (inr entity, w') ->
  exists idv,
    entity !! "id" = Some idv
    /\ sqlValue idv <> VNull
    /\ entity !! "is_deleted" = Some (VBool false)
    /\ table (tableName this) w'
       = (table (tableName this) w ++ [sqlValue <$> entity])%list.
Proof.
  unfold saveLocal, bind, generateId, getCurrentTimestamp, execute, ret.
  destruct (truthy (data !! "id")) eqn:Hid; cbn [next tick];
    destruct (storeFault env _); intros Hs; simplify_eq;
    rewrite table_setTable; eexists;
    (split; [by rewrite !lookup_insert_ne, lookup_insert_eq by done|]);
    (split; [|split; [by rewrite lookup_insert_eq|done]]).
  - unfold field. destruct (data !! "id") as [v|] eqn:Hv; [|done].
    by apply truthy_not_null.
  - done.
Qed.

(** X5: a saved record is counted by the filters it satisfies.  After a
    [saveLocal] that completes, the count that [countLocal] gives under a
    filter is one more than before when every property of the filter that
    is not null equals what the store keeps of the returned entity
    (booleans as 0 and 1, so that a filter on a boolean finds what was
    saved with it), and the same as before when one such property does
    not. *)
Theorem saveLocal_then_countLocal env this data (filter : Row) w entity w' n w0 :
  saveLocal env this data w = (inr entity, w') ->
  countLocal env this buildFilterConditions (Some filter) w = (inr n, w0) ->
  storeFault env (tick w') = None ->
  ((forall key v, filter !! key = Some v -> v <> VNull ->
                  sqlEq ((sqlValue <$> entity) !! key) v = true) ->
   (countLocal env this buildFilterConditions (Some filter) w').1 = inr (S n))
  /\ (forall key v, filter !! key = Some v -> v <> VNull ->
                    sqlEq ((sqlValue <$> entity) !! key) v = false ->
      (countLocal env this buildFilterConditions (Some filter) w').1 = inr n).
Proof.
  intros Hsave Hcount Hok.
  destruct (saveLocal_inv _ _ _ _ _ _ Hsave) as (idv & _ & _ & Hdel & Htab).
  assert (n = length (List.filter (whereListed buildFilterConditions (Some filter))
                        (table (tableName this) w))) as ->.
  { unfold countLocal, bind, select in Hcount.
    destruct (storeFault env (tick w)); [done|]. by injection Hcount as <- _. }
  assert (whereListed buildFilterConditions (Some filter) (sqlValue <$> entity)
          = buildFilterConditions filter (sqlValue <$> entity)) as Hlive.
  { unfold whereListed, notDeleted. by rewrite lookup_fmap, Hdel. }
  rewrite countLocal_run by done. cbn [fst]. rewrite Htab, List.filter_app.
  rewrite length_app. cbn [List.filter]. rewrite Hlive. split.
  - intros Hall. rewrite (proj2 (buildFilterConditions_iff _ _) Hall).
    cbn. f_equal. lia.
  - intros key v Hv Hnn Hne.
    destruct (buildFilterConditions filter (sqlValue <$> entity)) eqn:Hb.
    + pose proof (proj1 (buildFilterConditions_iff _ _) Hb key v Hv Hnn) as He.
      by rewrite He in Hne.
    + cbn. f_equal. lia.
Qed.

(** X8: what [saveLocal] has stored, [getLocal] reads back.  After a
    [saveLocal] that completes, and provided no row of the returned id that
    is not soft-deleted was there before, [getLocal] of that id returns the
    entity that [saveLocal] returned, with its booleans as 0 and 1. *)
Theorem saveLocal_then_getLocal env this data w entity w' :
  saveLocal env this data w = (inr entity, w') ->
  head (List.filter (whereLive (field "id" entity)) (table (tableName this) w))
  = None ->
  storeFault env (tick w') = None ->
  getLocal env this (field "id" entity) w' = (inr (Some (sqlValue <$> entity)), next w').
Proof.
  intros Hsave Hfresh Hok.
  apply saveLocal_inv in Hsave as (idv & Hid & Hnn & Hdel & Ht).
  rewrite getLocal_run by done. do 2 f_equal.
  rewrite Ht, List.filter_app.
  destruct (List.filter _ (table (tableName this) w)) as [|r0 l0]; [|done].
  cbn [app List.filter].
  assert (whereLive (field "id" entity) (sqlValue <$> entity) = true) as ->; [|done].
  assert (notDeleted (sqlValue <$> entity) = true) as Hnd.
  { unfold notDeleted. by rewrite lookup_fmap, Hdel. }
  unfold whereLive. rewrite Hnd, andb_true_r. unfold field.
  rewrite lookup_fmap, Hid. by apply sqlEq_stored.
Qed.

Lemma softDeleted_not_live id n (rows : list Row) :
  List.filter (whereLive id)
    (updateWhereId id [("is_deleted", VNum 1); ("updated_at", VTime n)] rows)
  = [].
Proof.
  induction rows as [|r rows IH]; [done|].
  unfold updateWhereId in *. cbn [fmap list_fmap List.filter]. rewrite IH.
  destruct (sqlEq (r !! "id") id) eqn:Hid.
  - rewrite softDelete_row. unfold whereLive, notDeleted.
    rewrite (lookup_insert_ne _ "updated_at" "is_deleted") by done.
    rewrite lookup_insert_eq. cbn. by rewrite andb_false_r.
  - unfold whereLive. by rewrite Hid.
Qed.

(** X9: a soft delete is final for the repository.  After [deleteLocal] of
    an id, [getLocal] of that id finds nothing, [updateLocal] of that id
    raises the not-found error whatever the partial (one that sets
    [is_deleted] to false included), and [listLocal] lists no row of that
    id. *)
Theorem deleteLocal_is_final env this id data conditions filter limit offset w :
  storeFault env (S (tick w)) = None ->
  storeFault env (S (S (tick w))) = None ->
  exists w1,
    deleteLocal env this id w = (inr tt, w1)
    /\ getLocal env this id w1 = (inr None, next w1)
    /\ updateLocal env this id data w1 = (inl (NotFound id), next w1)
    /\ exists rows,
         listLocal env this conditions filter limit offset w1 = (inr rows, next w1)
         /\ forall r, r ∈ rows -> sqlEq (r !! "id") id = false.
Proof.
  intros H1 H2. eexists. split; [by apply deleteLocal_run|].
  split.
  { rewrite getLocal_run by done. rewrite table_setTable.
    by rewrite softDeleted_not_live. }
  split.
  { rewrite updateLocal_missing; [done|done|].
    rewrite table_setTable. by rewrite softDeleted_not_live. }
  eexists. split; [by apply listLocal_run|].
  intros r Hin. apply sqlLimit_sublist in Hin.
  rewrite orderByDesc_Permutation in Hin.
  apply elem_of_list_filter_bool in Hin as [Hin Hp].
  rewrite table_setTable in Hin.
  destruct (sqlEq (r !! "id") id) eqn:Hid; [|done].
  apply updateWhereId_softDeleted in Hin as (_ & _ & Hnd); [|done].
  unfold whereListed in Hp. by rewrite Hnd in Hp.
Qed.

Lemma updated_table_live id (stamp : value) (data : Row) (rows : list Row) ex :
  data !! "is_deleted" = None ->
  head (List.filter (whereLive id) rows) = Some ex ->
  head (List.filter (whereLive id)
          ((fun r => if sqlEq (r !! "id") id
                     then <["updated_at" := stamp]>
                            ((sqlValue <$> delete "id" data) ∪ r)
                     else r) <$> rows))
  = Some (<["updated_at" := stamp]> ((sqlValue <$> delete "id" data) ∪ ex)).
Proof.
  intros Hd Hex.
  rewrite filter_fmap_preserving.
  - destruct (List.filter (whereLive id) rows) as [|r0 l0] eqn:Hf; [done|].
    cbn in Hex. simplify_eq. cbn.
    assert (whereLive id ex = true) as Hl.
    { eapply (head_filter_elem (whereLive id) rows). by rewrite Hf. }
    unfold whereLive in Hl. apply andb_true_iff in Hl as [-> _]. done.
  - intros r _. destruct (sqlEq (r !! "id") id); [|done].
    by apply whereLive_merged.
Qed.

(** X10: what [updateLocal] returns is not quite what it stores.  After an
    [updateLocal] that completes, with a partial that does not name
    [is_deleted], [getLocal] of the id returns a row that has the
    properties of the partial (booleans as 0 and 1) over those of the
    previous row, and the previous id; its [updated_at] is the second
    reading of the clock, while the entity that [updateLocal] returned
    carries the first. *)
Theorem updateLocal_then_getLocal env this id data w ex :
  storeFault env (tick w) = None ->
  head (List.filter (whereLive id) (table (tableName this) w)) = Some ex ->
  (exists k, k <> "id" /\ is_Some (data !! k)) ->
  data !! "is_deleted" = None ->
  storeFault env (S (S (S (tick w)))) = None ->
  storeFault env (S (S (S (S (tick w))))) = None ->
  exists u w' stored,
    updateLocal env this id data w = (inr u, w')
    /\ getLocal env this id w' = (inr (Some stored), next w')
    /\ u !! "updated_at" = Some (VTime (clockAt env (S (tick w))))
    /\ stored !! "updated_at" = Some (VTime (clockAt env (S (S (tick w)))))
    /\ stored !! "id" = ex !! "id"
    /\ forall k, k <> "id" -> k <> "updated_at" ->
                 stored !! k = match data !! k with
                               | Some v => Some (sqlValue v)
                               | None => ex !! k
                               end.
Proof.
  intros Hsel Hex Hk Hdel Hexe Hsel'. eexists _, _, _.
  split; [apply (updateLocal_run _ _ _ _ _ ex); auto using cols_nonempty|].
  split.
  { rewrite getLocal_run by done. rewrite table_setTable.
    by rewrite (updated_table_live _ _ _ _ ex). }
  split; [by rewrite lookup_insert_eq|].
  split; [by rewrite lookup_insert_eq|].
  split; [apply merged_row_id|].
  intros k Hid Hu. destruct (data !! k) as [v|] eqn:Hv.
  - by apply merged_row_set.
  - by apply merged_row_other.
Qed.

(** ** The todo repository *)

Lemma getByUserId_run env this userId completed w :
  storeFault env (tick w) = None ->
  getByUserId env this userId completed w
  = (inr (orderByDesc byPriorityCreatedAt
            (List.filter (whereUserTodos userId completed)
               (table (tableName this) w))),
     next w).
Proof. intros Hok. unfold getByUserId, bind. by rewrite select_run. Qed.

(** X11: [markCompleted] and [getByUserId] fit together.  After
    [markCompleted(id, done)] on a todo of user [u] that is not
    soft-deleted ([done] is true when not given), [getByUserId(u, done)]
    lists a row of that id, with [completed] stored as 1 or 0, and
    [getByUserId(u, not done)] lists no row of that id. *)
Theorem markCompleted_then_getByUserId env this id (done : option bool) u w ex :
  storeFault env (tick w) = None ->
  head (List.filter (whereLive id) (table (tableName this) w)) = Some ex ->
  sqlEq (ex !! "user_id") u = true ->
  storeFault env (S (S (S (tick w)))) = None ->
  storeFault env (S (S (S (S (tick w))))) = None ->
  exists row w',
    markCompleted env this id (VBool <$> done) w = (inr row, w')
    /\ (exists listed,
          getByUserId env this u (Some (VBool (default true done))) w'
          = (inr listed, next w')
          /\ exists r, r ∈ listed
                       /\ sqlEq (r !! "id") id = true
                       /\ r !! "completed" = Some (VNum (Z.b2z (default true done))))
    /\ (exists listed,
          getByUserId env this u (Some (VBool (negb (default true done)))) w'
          = (inr listed, next w')
          /\ forall r, r ∈ listed -> sqlEq (r !! "id") id = false).
Proof.
  intros Hsel Hex Hu Hexe Hsel'.
  assert ((default (VBool true) (VBool <$> done)) = VBool (default true done)) as Hd
    by (by destruct done).
  pose proof (head_filter_elem _ _ _ Hex) as [Hin Hlive].
  unfold whereLive in Hlive. apply andb_true_iff in Hlive as [Hid Hnd].
  eexists _, _. split.
  { unfold markCompleted. rewrite Hd.
    apply (updateLocal_run _ _ _ _ _ ex); [done|done| |done].
    apply cols_nonempty. exists "completed". split; [done|].
    rewrite lookup_singleton_eq. by eexists. }
  split.
  - eexists. split; [by apply getByUserId_run|].
    eexists. split; [|split].
    + rewrite orderByDesc_Permutation. apply elem_of_list_filter_bool. split.
      * rewrite table_setTable. apply list_elem_of_fmap. by exists ex.
      * rewrite Hid. unfold whereUserTodos, notDeleted.
        rewrite (merged_row_other _ _ _ "user_id"), (merged_row_other _ _ _ "is_deleted"),
          (merged_row_set _ _ _ "completed" (VBool (default true done)))
          by (done || by rewrite ?lookup_singleton_ne, ?lookup_singleton_eq).
        rewrite Hu. unfold notDeleted in Hnd. rewrite Hnd.
        by destruct (default true done).
    + rewrite Hid. by rewrite merged_row_id.
    + rewrite Hid.
      by rewrite (merged_row_set _ _ _ "completed" (VBool (default true done)))
        by (done || by rewrite lookup_singleton_eq).
  - eexists. split; [by apply getByUserId_run|].
    intros r Hr. rewrite orderByDesc_Permutation in Hr.
    apply elem_of_list_filter_bool in Hr as [Hr Hp].
    rewrite table_setTable in Hr.
    apply list_elem_of_fmap in Hr as (r0 & -> & Hr0).
    destruct (sqlEq (r0 !! "id") id) eqn:Hid0; [exfalso|done].
    unfold whereUserTodos in Hp.
    rewrite (merged_row_set _ _ _ "completed" (VBool (default true done))) in Hp
      by (done || by rewrite lookup_singleton_eq).
    apply andb_true_iff in Hp as [_ Hp]. by destruct (default true done).
Qed.

(** ** resolveConflict *)

(** X12: the default resolution is last write wins.  The two [updated_at]
    are read as [Date] reads them, whatever their format.  When the remote
    one is not later than the local one (or one of them is no date),
    [resolveConflict] does nothing at all, not even a read.  When it is
    later, the remote record is written over the local row through
    [updateLocal]; if the local record has been soft-deleted meanwhile, the
    not-found error reaches the caller.  For a pair on which the conflict
    test of the pull phase holds, one side is strictly later than the
    other. *)
Theorem resolveConflict_last_write_wins env this conflict w :
  let localTime := getTime (dateParse env) (local_data conflict !! "updated_at") in
  let remoteTime := getTime (dateParse env) (remote_data conflict !! "updated_at") in
  let id := field "id" (local_data conflict) in
  (numGt remoteTime localTime = false ->
   resolveConflict env this conflict w = (inr tt, w))
  /\ (numGt remoteTime localTime = true ->
      storeFault env (tick w) = None ->
      (forall ex,
          head (List.filter (whereLive id) (table (tableName this) w)) = Some ex ->
          (exists k, k <> "id" /\ is_Some (remote_data conflict !! k)) ->
          storeFault env (S (S (S (tick w)))) = None ->
          exists w',
            resolveConflict env this conflict w = (inr tt, w')
            /\ table (tableName this) w'
               = (fun r => if sqlEq (r !! "id") id
                           then <["updated_at" :=
                                    VTime (clockAt env (S (S (tick w))))]>
                                  ((sqlValue <$> delete "id" (remote_data conflict))
                                   ∪ r)
                           else r) <$> table (tableName this) w)
      /\ (head (List.filter (whereLive id) (table (tableName this) w)) = None ->
          resolveConflict env this conflict w = (inl (NotFound id), next w)))
  /\ (hasConflict env (local_data conflict) (remote_data conflict) = true ->
      numGt remoteTime localTime = true \/ numGt localTime remoteTime = true).
Proof.
  intros localTime remoteTime id. subst localTime remoteTime id.
  split; [|split].
  - intros Hle. unfold resolveConflict. by rewrite Hle.
  - intros Hgt Hsel. unfold resolveConflict. rewrite Hgt. split.
    + intros ex Hex Hk Hexe. unfold bind.
      rewrite (updateLocal_run _ _ _ _ _ ex); auto using cols_nonempty.
      eexists. split; [reflexivity|]. by rewrite table_setTable.
    + intros Hnone. unfold bind. by rewrite updateLocal_missing.
  - unfold hasConflict. intros Hc.
    apply andb_true_iff in Hc as [Hc Hneq].
    apply andb_true_iff in Hc as [Hl Hr].
    destruct (getTime _ (local_data conflict !! "updated_at")) as [x|]; [|done].
    destruct (getTime _ (remote_data conflict !! "updated_at")) as [y|];
      [|by destruct (if truthy _ then _ else _)].
    cbn in *. apply negb_true_iff, Z.eqb_neq in Hneq.
    destruct (Z.lt_total x y) as [?|[?|?]]; [left|done|right]; by apply Z.ltb_lt.
Qed.

(** ** What a sync pass leaves behind *)

Lemma stamped_row_dirty (r : Row) c0 c3 :
  whereDirty (<["updated_at" := VTime c3]> (<["last_sync_at" := VTime c0]> r))
  = (c0 <? c3).
Proof.
  unfold whereDirty.
  rewrite (lookup_insert_ne _ "updated_at" "last_sync_at") by done.
  by rewrite !lookup_insert_eq.
Qed.

(** X13: a record that has just been pushed is dirty again as soon as the
    clock moves.  When the remote write of a push step has completed and
    the stamp is written, every row of the record's id has [last_sync_at]
    set to one reading of the clock and [updated_at] to a later reading
    (three interactions later); the row satisfies the selection of dirty
    rows exactly when the second reading is later than the first. *)
Theorem pushed_record_dirty_again env this item w res w1 res1 ex :
  pushWrite env this item (w, res) = (inr tt, (w1, res1)) ->
  storeFault env (S (tick w1)) = None ->
  head (List.filter (whereLive (field "id" item)) (table (tableName this) w1))
  = Some ex ->
  storeFault env (S (S (S (S (tick w1))))) = None ->
  exists w2,
    pushItem env this item (w, res) = (inr tt, (w2, res1))
    /\ forall r, r ∈ table (tableName this) w2 ->
                 sqlEq (r !! "id") (field "id" item) = true ->
                 r !! "last_sync_at" = Some (VTime (clockAt env (tick w1)))
                 /\ r !! "updated_at"
                    = Some (VTime (clockAt env (S (S (S (tick w1))))))
                 /\ (whereDirty r = true
                     <-> clockAt env (tick w1) < clockAt env (S (S (S (tick w1))))).
Proof.
  intros Hw Hsel Hex Hexe.
  rewrite (pushItem_write_done _ _ _ _ w1 res1) by done.
  rewrite (updateLocal_run _ _ _ _ _ ex); [|exact Hsel|exact Hex| |exact Hexe].
  2: { apply cols_nonempty. exists "last_sync_at". split; [discriminate|].
       rewrite lookup_singleton_eq. by eexists. }
  eexists. split; [reflexivity|]. intros r Hr Hid.
  rewrite table_setTable in Hr. apply list_elem_of_fmap in Hr as (r0 & -> & _).
  destruct (sqlEq (r0 !! "id") (field "id" item)) eqn:Hid0; [|congruence].
  rewrite stamp_row. cbn [sqlValue]. rewrite stamped_row_dirty.
  split; [by rewrite lookup_insert_ne, lookup_insert_eq|].
  split; [by rewrite lookup_insert_eq|]. apply Z.ltb_lt.
Qed.

(** X14: a merge made by the pull phase leaves the record dirty.  When the
    conflict test does not hold and the remote record, which carries no
    [last_sync_at], is written over the local row, every row of that id
    keeps the [last_sync_at] it had and gets the reading of the clock as
    [updated_at]: it satisfies the selection of dirty rows when it was
    never stamped, and otherwise exactly when that reading is later than the
    stamp. *)
Theorem merged_record_dirty env this remoteItem w res li ex :
  storeFault env (tick w) = None ->
  head (List.filter (whereRemoteId (field "id" remoteItem))
          (table (tableName this) w)) = Some li ->
  hasConflict env li remoteItem = false ->
  storeFault env (S (tick w)) = None ->
  head (List.filter (whereLive (field "id" li)) (table (tableName this) w))
  = Some ex ->
  (exists k, k <> "id" /\ is_Some (remoteItem !! k)) ->
  remoteItem !! "last_sync_at" = None ->
  storeFault env (S (S (S (S (tick w))))) = None ->
  exists w2,
    pullItem env this remoteItem (w, res) = (inr tt, (w2, incUpdated res))
    /\ forall r, r ∈ table (tableName this) w2 ->
                 sqlEq (r !! "id") (field "id" li) = true ->
                 exists r0,
                   r0 ∈ table (tableName this) w
                   /\ r !! "last_sync_at" = r0 !! "last_sync_at"
                   /\ r !! "updated_at"
                      = Some (VTime (clockAt env (S (S (S (tick w))))))
                   /\ (sqlIsNull (r0 !! "last_sync_at") = true -> whereDirty r = true)
                   /\ (forall s, r0 !! "last_sync_at" = Some (VTime s) ->
                         whereDirty r = true
                         <-> s < clockAt env (S (S (S (tick w))))).
Proof.
  intros Hok Hli Hc Hsel Hex Hk Hls Hexe.
  rewrite (pullItem_found _ _ _ _ _ li) by done. rewrite Hc.
  rewrite (updateLocal_run _ _ _ _ _ ex);
    [|exact Hsel|exact Hex|by apply cols_nonempty|exact Hexe].
  eexists. split; [reflexivity|]. intros r Hr Hid.
  rewrite table_setTable in Hr. apply list_elem_of_fmap in Hr as (r0 & -> & Hr0).
  cbn [next tick] in *.
  destruct (sqlEq (r0 !! "id") (field "id" li)) eqn:Hid0; [|congruence].
  exists r0. split; [done|].
  assert (Hl : (<["updated_at" := VTime (clockAt env (S (S (S (tick w)))))]>
                  ((sqlValue <$> delete "id" remoteItem) ∪ r0)) !! "last_sync_at"
               = r0 !! "last_sync_at") by (by apply merged_row_other).
  split; [done|]. split; [by rewrite lookup_insert_eq|].
  unfold whereDirty. rewrite Hl, lookup_insert_eq. split.
  - by intros ->.
  - intros s Hs. rewrite Hs. cbn. apply Z.ltb_lt.
Qed.

(** X15: a listing that fails looks like an empty listing.  With the
    remote enabled, nothing dirty in the table, and a listing request that
    fails (transport error or a status that is not ok), the pass returns
    [success] true with no error, no conflict and all counters at 0, as it
    does when the remote has no record. *)
Theorem failed_listing_reports_success env this w :
  configEnabled (remoteConfig this) = true ->
  configContentSync (remoteConfig this) = true ->
  storeFault env (tick w) = None ->
  List.filter whereDirty (table (tableName this) w) = [] ->
  (forall body, fetchList env (S (tick w)) (tableName this) <> Ok body) ->
  syncWithRemote env this w = (inr emptyResult, next (next w)).
Proof.
  intros Hen Hcs Hok Hclean Hfail.
  unfold syncWithRemote. rewrite Hen, Hcs. cbn [negb orb].
  unfold syncPass, tryCatch, syncBody, bind at 1.
  unfold liftW at 1, getLocalChanges. cbn [fst snd].
  rewrite select_run by done. rewrite Hclean.
  unfold bind. cbn [forEach ret]. unfold liftW, getRemoteChanges, listRemote, bind.
  rewrite Hen. cbn [negb fst snd next tick].
  destruct (fetchList env (S (tick w)) (tableName this)) as [msg|st|body] eqn:Hf;
    [done|done|]. by destruct (Hfail body).
Qed.

Lemma rewritten_table_live id (f : Row -> Row) (rows : list Row) ex :
  (forall r, whereLive id (f r) = whereLive id r) ->
  head (List.filter (whereLive id) rows) = Some ex ->
  head (List.filter (whereLive id)
          ((fun r => if sqlEq (r !! "id") id then f r else r) <$> rows))
  = Some (f ex).
Proof.
  intros Hf Hex. rewrite filter_fmap_preserving.
  - destruct (List.filter (whereLive id) rows) as [|r0 l0] eqn:Hl; [done|].
    cbn in Hex. simplify_eq. cbn.
    assert (whereLive id ex = true) as Hlive.
    { eapply (head_filter_elem (whereLive id) rows). by rewrite Hl. }
    unfold whereLive in Hlive. apply andb_true_iff in Hlive as [-> _]. done.
  - intros r _. by destruct (sqlEq (r !! "id") id).
Qed.

Lemma remoteId_row (v : value) (r : Row) :
  (sqlValue <$> delete "id" ({["remote_id" := v]} : Row)) ∪ r
  = <["remote_id" := sqlValue v]> r.
Proof.
  rewrite delete_singleton_ne by done. rewrite map_fmap_singleton.
  by rewrite <- insert_union_singleton_l.
Qed.

(** X16: the push of a record that has no remote counterpart.  When the
    remote create returns a record, the local record is not soft-deleted
    and the store accepts the statements, the step increments [created],
    and every row of the record's id then carries the id of the remote
    record as [remote_id] and the stamp as [last_sync_at]; the table has
    the same number of rows as before. *)
Theorem push_creates_remote env this item w res ri ex :
  configEnabled (remoteConfig this) = true ->
  truthy (item !! "remote_id") = false ->
  fetchPost env (tick w) (tableName this) item = Ok (Some ri) ->
  head (List.filter (whereLive (field "id" item)) (table (tableName this) w))
  = Some ex ->
  storeFault env (1 + tick w)%nat = None ->
  storeFault env (4 + tick w)%nat = None ->
  storeFault env (6 + tick w)%nat = None ->
  storeFault env (9 + tick w)%nat = None ->
  exists w2,
    pushItem env this item (w, res) = (inr tt, (w2, incCreated res))
    /\ length (table (tableName this) w2) = length (table (tableName this) w)
    /\ forall r, r ∈ table (tableName this) w2 ->
                 sqlEq (r !! "id") (field "id" item) = true ->
                 r !! "remote_id" = Some (sqlValue (field "id" ri))
                 /\ r !! "last_sync_at"
                    = Some (VTime (clockAt env (5 + tick w)%nat)).
Proof.
  intros Hen Ht Hpost Hex H1 H4 H6 H9.
  assert (Hw : pushWrite env this item (w, res)
               = (inr tt,
                  (setTable (tableName this)
                     ((fun r => if sqlEq (r !! "id") (field "id" item)
                                then <["updated_at" :=
                                         VTime (clockAt env (3 + tick w)%nat)]>
                                       (<["remote_id" := sqlValue (field "id" ri)]> r)
                                else r) <$> table (tableName this) w)
                     (next (next (next (next (next w))))),
                   incCreated res))).
  { rewrite (pushWrite_save_done _ _ _ _ _ ri (next w));
      [|done|by apply saveRemote_ok].
    rewrite (updateLocal_run _ _ _ _ _ ex); [|exact H1|exact Hex| |exact H4].
    2: { apply cols_nonempty. exists "remote_id". split; [discriminate|].
         rewrite lookup_singleton_eq. by eexists. }
    do 3 f_equal. apply list_fmap_ext. intros _ r _.
    destruct (sqlEq (r !! "id") (field "id" item)); [|done].
    by rewrite remoteId_row. }
  rewrite (pushItem_write_done _ _ _ _ _ _ Hw).
  erewrite (updateLocal_run _ _ _ _ _ _); [|exact H6| |
    apply cols_nonempty; exists "last_sync_at"; split; [discriminate|];
    rewrite lookup_singleton_eq; by eexists|exact H9].
  2: { rewrite table_next, table_setTable.
       apply (rewritten_table_live (field "id" item)
                (fun r => <["updated_at" := VTime (clockAt env (3 + tick w)%nat)]>
                            (<["remote_id" := sqlValue (field "id" ri)]> r)));
         [|exact Hex].
       intros r. unfold whereLive, notDeleted.
       by rewrite !(lookup_insert_ne _ _ "id"), !(lookup_insert_ne _ _ "is_deleted")
         by done. }
  eexists. split; [reflexivity|].
  rewrite table_setTable, table_next, table_setTable.
  split; [by rewrite !length_fmap|].
  intros r Hr Hid. apply list_elem_of_fmap in Hr as (r1 & -> & Hr1).
  apply list_elem_of_fmap in Hr1 as (r0 & -> & _).
  destruct (sqlEq (r0 !! "id") (field "id" item)) eqn:Hid0.
  - rewrite !(lookup_insert_ne _ _ "id") by done. rewrite Hid0.
    rewrite stamp_row. cbn [sqlValue next tick].
    split.
    + by rewrite !(lookup_insert_ne _ _ "remote_id"), lookup_insert_eq by done.
    + by rewrite (lookup_insert_ne _ "updated_at" "last_sync_at"), lookup_insert_eq
        by done.
  - rewrite Hid0 in Hid. congruence.
Qed.

Lemma pullItem_missing env this remoteItem w res :
  storeFault env (tick w) = None ->
  head (List.filter (whereRemoteId (field "id" remoteItem))
          (table (tableName this) w)) = None ->
  pullItem env this remoteItem (w, res)
  = match saveLocal env this
            (<["id" := VStr (uuidAt env (S (tick w)))]>
               (<["remote_id" := field "id" remoteItem]> remoteItem))
            (next (next w)) with
    | (inr _, w2) => (inr tt, (w2, incCreated res))
    | (inl e, w2) =>
        (inr tt, (w2, setFailed
                        (pushError (MergeFailed (field "id" remoteItem) e) res)))
    end.
Proof.
  intros Hok Hnone. unfold pullItem, tryCatch, pullBody, bind at 1.
  unfold liftW at 1, findLocalByRemoteId, bind at 1. cbn [fst snd].
  rewrite select_run by done. unfold ret at 1. rewrite Hnone.
  unfold bind, liftW, generateId. cbn [fst snd next tick].
  by destruct (saveLocal _ _ _ _) as [[e|u] w2].
Qed.

Lemma saveLocal_given_id env this data w idv :
  data !! "id" = Some idv ->
  truthy (Some idv) = true ->
  storeFault env (S (tick w)) = None ->
  exists entity,
    saveLocal env this data w
    = (inr entity,
       setTable (tableName this)
         (table (tableName this) w ++ [sqlValue <$> entity])%list
         (next (next w)))
    /\ entity !! "id" = Some idv
    /\ entity !! "is_deleted" = Some (VBool false)
    /\ entity !! "updated_at" = Some (VTime (clockAt env (tick w)))
    /\ (forall k, k ∉ ["id"; "created_at"; "updated_at"; "is_deleted"] ->
          entity !! k = data !! k).
Proof.
  intros Hid Ht Hok.
  unfold saveLocal, bind, getCurrentTimestamp, execute, ret.
  rewrite Hid, Ht. cbn [next tick]. rewrite Hok.
  eexists. split; [reflexivity|].
  split.
  { rewrite !lookup_insert_ne by done. rewrite lookup_insert_eq.
    unfold field. by rewrite Hid. }
  split; [by rewrite lookup_insert_eq|].
  split; [by rewrite lookup_insert_ne, lookup_insert_eq by done|].
  intros k Hk. repeat (apply not_elem_of_cons in Hk as [? Hk]).
  by rewrite !lookup_insert_ne by done.
Qed.

(** X17: a remote record that matches no local row becomes a new local row.
    With an identifier source that returns a non-empty id and a store that
    accepts the statements, the step increments [created] and appends one
    row: its id is the minted one, its [remote_id] the id of the remote
    record, it is not soft-deleted, and its other columns are those of the
    remote record.  The row is dirty when the remote record carries no
    [last_sync_at]; and, the remote id not being null, the lookup by
    [remote_id] now finds it, so that the same remote record is not
    inserted a second time. *)
Theorem pull_creates_local env this remoteItem w res :
  storeFault env (tick w) = None ->
  head (List.filter (whereRemoteId (field "id" remoteItem))
          (table (tableName this) w)) = None ->
  uuidAt env (S (tick w)) <> "" ->
  storeFault env (S (S (S (tick w)))) = None ->
  exists w' row,
    pullItem env this remoteItem (w, res) = (inr tt, (w', incCreated res))
    /\ table (tableName this) w' = (table (tableName this) w ++ [row])%list
    /\ row !! "id" = Some (VStr (uuidAt env (S (tick w))))
    /\ row !! "remote_id" = Some (sqlValue (field "id" remoteItem))
    /\ row !! "is_deleted" = Some (VNum 0)
    /\ row !! "updated_at" = Some (VTime (clockAt env (S (S (tick w)))))
    /\ (forall k, k ∉ ["id"; "remote_id"; "created_at"; "updated_at"; "is_deleted"] ->
          row !! k = sqlValue <$> remoteItem !! k)
    /\ (sqlIsNull (remoteItem !! "last_sync_at") = true -> whereDirty row = true)
    /\ (sqlValue (field "id" remoteItem) <> VNull ->
        head (List.filter (whereRemoteId (field "id" remoteItem))
                (table (tableName this) w')) = Some row).
Proof.
  intros Hok Hnone Hid Hexe.
  rewrite pullItem_missing by done.
  destruct (saveLocal_given_id env this
              (<["id" := VStr (uuidAt env (S (tick w)))]>
                 (<["remote_id" := field "id" remoteItem]> remoteItem))
              (next (next w)) (VStr (uuidAt env (S (tick w)))))
    as (entity & -> & Ei & Ed & Eu & Ek).
  { by rewrite lookup_insert_eq. }
  { cbn. apply negb_true_iff. by apply String.eqb_neq. }
  { exact Hexe. }
  assert (Er : entity !! "remote_id" = Some (field "id" remoteItem)).
  { rewrite Ek by (repeat (apply not_elem_of_cons; split; [done|]);
                   apply not_elem_of_nil).
    by rewrite lookup_insert_ne, lookup_insert_eq. }
  eexists _, _. split; [reflexivity|].
  rewrite table_setTable. split; [reflexivity|].
  rewrite !lookup_fmap, Ei, Ed, Eu, Er.
  do 4 (split; [reflexivity|]).
  split.
  { intros k Hk. rewrite lookup_fmap, Ek.
    - repeat (apply not_elem_of_cons in Hk as [? Hk]).
      by rewrite !lookup_insert_ne by done.
    - repeat (apply not_elem_of_cons in Hk as [? Hk]).
      repeat (apply not_elem_of_cons; split; [done|]). apply not_elem_of_nil. }
  split.
  { intros Hnull. unfold whereDirty. rewrite lookup_fmap, Ek.
    - rewrite !lookup_insert_ne by done.
      by destruct (remoteItem !! "last_sync_at") as [[]|].
    - repeat (apply not_elem_of_cons; split; [done|]). apply not_elem_of_nil. }
  intros Hnn. rewrite List.filter_app, !table_next.
  destruct (List.filter _ (table (tableName this) w)) as [|r0 l0]; [|done].
  cbn [app List.filter].
  assert (whereRemoteId (field "id" remoteItem) (sqlValue <$> entity) = true)
    as Hm.
  { unfold whereRemoteId. rewrite lookup_fmap, Er. by apply sqlEq_stored. }
  by rewrite Hm.
Qed.

(** ** Invariants of a sync pass *)

Section KeepsPaired.
Context (P : SyncResult -> Prop).
Hypothesis P_incUpdated : forall r, P r -> P (incUpdated r).
Hypothesis P_incCreated : forall r, P r -> P (incCreated r).
Hypothesis P_pushConflict : forall c r, P r -> P (pushConflict c r).
Hypothesis P_failed : forall e r, P r -> P (setFailed (pushError e r)).
Hypothesis P_failed' : forall e r, P r -> P (pushError e (setFailed r)).

Lemma keeps_paired_handler (e : SyncError) :
  keeps P (bind (tell (pushError e)) (fun _ => tell setFailed)).
Proof. intros [w r] Hr. cbn. by apply P_failed. Qed.

Lemma pushItem_keeps_paired env this item : keeps P (pushItem env this item).
Proof.
  apply keeps_tryCatch; [|intros e; apply keeps_paired_handler].
  apply keeps_bind.
  - unfold pushWrite. destruct (truthy _).
    + apply keeps_bind; [apply keeps_liftW|]. intros _.
      apply keeps_tell; auto.
    + apply keeps_bind; [apply keeps_liftW|]. intros [ri|].
      * apply keeps_bind; [apply keeps_liftW|]. intros _.
        apply keeps_tell; auto.
      * apply keeps_ret.
  - intros _. apply keeps_bind; [apply keeps_liftW|]. intros ts.
    apply keeps_bind; [apply keeps_liftW|]. intros _. apply keeps_ret.
Qed.

Lemma pullItem_keeps_paired env this remoteItem :
  keeps P (pullItem env this remoteItem).
Proof.
  apply keeps_tryCatch; [|intros e; apply keeps_paired_handler].
  apply keeps_bind; [apply keeps_liftW|]. intros [li|].
  - destruct (hasConflict env li remoteItem).
    + apply keeps_tell. intros r. by apply P_pushConflict.
    + apply keeps_bind; [apply keeps_liftW|]. intros _.
      apply keeps_tell; auto.
  - apply keeps_bind; [apply keeps_liftW|]. intros id.
    apply keeps_bind; [apply keeps_liftW|]. intros _.
    apply keeps_tell; auto.
Qed.

Lemma syncPass_keeps_paired env this : keeps P (syncPass env this).
Proof.
  apply keeps_tryCatch.
  - apply keeps_bind; [apply keeps_liftW|]. intros localChanges.
    apply keeps_bind;
      [apply keeps_forEach; intros x; apply pushItem_keeps_paired|].
    intros _. apply keeps_bind; [apply keeps_liftW|]. intros [items|truthy].
    + apply keeps_forEach. intros [remoteItem|];
        [apply pullItem_keeps_paired|apply keeps_throw].
    + apply keeps_throw.
  - intros e [w r] Hr. cbn. by apply P_failed'.
Qed.
End KeepsPaired.

(** X18: in every result of [syncWithRemote], [success] is true exactly
    when [errors] is empty. *)
Theorem syncWithRemote_success_iff_no_error env this w :
  exists r w',
    syncWithRemote env this w = (inr r, w')
    /\ (success r = true <-> errors r = []).
Proof.
  unfold syncWithRemote.
  destruct (negb _ || negb _).
  { eexists _, _. split; [reflexivity|]. by split. }
  destruct (syncPass_total env this (w, emptyResult)) as ([] & [w' r] & Hs).
  assert (success r = true <-> errors r = []) as Hr.
  { pose proof (syncPass_keeps_paired
                  (fun r => success r = true <-> errors r = [])) as Hk.
    change r with (inr tt : exn + unit, (w', r)).2.2. rewrite <- Hs.
    apply Hk.
    - by intros r0.
    - by intros r0.
    - by intros c r0.
    - intros e r0 _. cbn. split; [done|]. by intros [_ ?]%app_eq_nil.
    - intros e r0 _. cbn. split; [done|]. by intros [_ ?]%app_eq_nil.
    - done. }
  rewrite Hs. by eexists _, _.
Qed.

(** ** A repository writes to its own table only *)

Lemma sameElsewhere_refl name w : sameElsewhere name w w.
Proof. by split; [|split]. Qed.

Lemma sameElsewhere_trans name w1 w2 w3 :
  sameElsewhere name w1 w2 -> sameElsewhere name w2 w3 -> sameElsewhere name w1 w3.
Proof.
  intros (Ha & Ht & Hn) (Ha' & Ht' & Hn').
  split; [congruence|]. split; [lia|].
  intros other Ho. rewrite Hn' by done. by apply Hn.
Qed.

Lemma sameElsewhere_next name w : sameElsewhere name w (next w).
Proof. split; [done|]. split; [cbn; lia|done]. Qed.

Lemma sameElsewhere_setTable name rows w :
  sameElsewhere name w (setTable name rows w).
Proof.
  split; [done|]. split; [done|]. intros other Ho. by apply table_setTable_ne.
Qed.

Lemma confined_ret name {A} (a : A) : confined name (ret a).
Proof. intros w. apply sameElsewhere_refl. Qed.

Lemma confined_throw name {A} e : confined name (throw (A := A) e).
Proof. intros w. apply sameElsewhere_refl. Qed.

Lemma confined_bind name {A B} (m : M World A) (k : A -> M World B) :
  confined name m -> (forall a, confined name (k a)) -> confined name (bind m k).
Proof.
  intros Hm Hk w. unfold bind. specialize (Hm w).
  destruct (m w) as [[e|a] w1]; [done|].
  eapply sameElsewhere_trans; [exact Hm|apply Hk].
Qed.

Lemma confined_select env this p : confined (tableName this) (select env this p).
Proof.
  intros w. unfold select.
  destruct (storeFault env (tick w)); apply sameElsewhere_next.
Qed.

Lemma confined_execute env this f : confined (tableName this) (execute env this f).
Proof.
  intros w. unfold execute. destruct (storeFault env (tick w)).
  - apply sameElsewhere_next.
  - eapply sameElsewhere_trans; [apply sameElsewhere_next|].
    apply sameElsewhere_setTable.
Qed.

Lemma confined_getCurrentTimestamp env name : confined name (getCurrentTimestamp env).
Proof. intros w. apply sameElsewhere_next. Qed.

Lemma confined_generateId env name : confined name (generateId env).
Proof. intros w. apply sameElsewhere_next. Qed.

Lemma confined_getLocal env this id : confined (tableName this) (getLocal env this id).
Proof.
  apply confined_bind; [apply confined_select|]. intros r. apply confined_ret.
Qed.

Lemma confined_saveLocal env this data :
  confined (tableName this) (saveLocal env this data).
Proof.
  apply confined_bind.
  { destruct (truthy _); [apply confined_ret|apply confined_generateId]. }
  intros id. apply confined_bind; [apply confined_getCurrentTimestamp|].
  intros now. apply confined_bind; [apply confined_execute|].
  intros _. apply confined_ret.
Qed.

Lemma confined_updateLocal env this id data :
  confined (tableName this) (updateLocal env this id data).
Proof.
  apply confined_bind; [apply confined_getLocal|].
  intros [ex|]; [|apply confined_throw].
  apply confined_bind; [apply confined_getCurrentTimestamp|]. intros now.
  apply confined_bind; [apply confined_getCurrentTimestamp|]. intros stamp.
  apply confined_bind; [|intros _; apply confined_ret].
  destruct (filter _ _).
  - intros w. apply sameElsewhere_next.
  - apply confined_execute.
Qed.

Lemma confined_deleteLocal env this id :
  confined (tableName this) (deleteLocal env this id).
Proof.
  apply confined_bind; [apply confined_getCurrentTimestamp|].
  intros now. apply confined_execute.
Qed.

Lemma confined_saveRemote env this data :
  confined (tableName this) (saveRemote env this data).
Proof.
  intros w. unfold saveRemote. destruct (negb _); [apply sameElsewhere_refl|].
  destruct (fetchPost _ _ _ _); apply sameElsewhere_next.
Qed.

Lemma confined_updateRemote env this id data :
  confined (tableName this) (updateRemote env this id data).
Proof.
  intros w. unfold updateRemote. destruct (negb _); [apply sameElsewhere_refl|].
  destruct (fetchPut _ _ _ _ _); apply sameElsewhere_next.
Qed.

Lemma confined_listRemote env this : confined (tableName this) (listRemote env this).
Proof.
  intros w. unfold listRemote. destruct (negb _); [apply sameElsewhere_refl|].
  destruct (fetchList _ _ _); apply sameElsewhere_next.
Qed.

Lemma confined_getRemoteChanges env this :
  confined (tableName this) (getRemoteChanges env this).
Proof.
  apply confined_bind; [apply confined_listRemote|]. intros remote.
  apply confined_ret.
Qed.

Lemma confinedPass_liftW name {A} (m : M World A) :
  confined name m -> confinedPass name (liftW m).
Proof.
  intros Hm [w r]. unfold liftW. cbn [fst snd]. specialize (Hm w).
  by destruct (m w).
Qed.

Lemma confinedPass_tell name f : confinedPass name (tell f).
Proof. intros [w r]. apply sameElsewhere_refl. Qed.

Lemma confinedPass_ret name {A} (a : A) : confinedPass name (ret a).
Proof. intros s. apply sameElsewhere_refl. Qed.

Lemma confinedPass_throw name {A} (e : exn) :
  confinedPass name (throw (A := A) e).
Proof. intros s. apply sameElsewhere_refl. Qed.

Lemma confinedPass_bind name {A B} (m : M _ A) (k : A -> M _ B) :
  confinedPass name m -> (forall a, confinedPass name (k a)) ->
  confinedPass name (bind m k).
Proof.
  intros Hm Hk s. unfold bind. specialize (Hm s).
  destruct (m s) as [[e|a] s1]; [done|].
  eapply sameElsewhere_trans; [exact Hm|apply Hk].
Qed.

Lemma confinedPass_tryCatch name {A} (m : M _ A) (h : exn -> M _ A) :
  confinedPass name m -> (forall e, confinedPass name (h e)) ->
  confinedPass name (tryCatch m h).
Proof.
  intros Hm Hh s. unfold tryCatch. specialize (Hm s).
  destruct (m s) as [[e|a] s1]; [|done].
  eapply sameElsewhere_trans; [exact Hm|apply Hh].
Qed.

Lemma confinedPass_forEach name {A} (l : list A) (body : A -> M _ unit) :
  (forall x, confinedPass name (body x)) -> confinedPass name (forEach l body).
Proof.
  intros Hb. induction l as [|x l IH]; cbn.
  - apply confinedPass_ret.
  - apply confinedPass_bind; [apply Hb|]. by intros _.
Qed.

Lemma confinedPass_handler name (e : SyncError) :
  confinedPass name (bind (tell (pushError e)) (fun _ => tell setFailed)).
Proof.
  apply confinedPass_bind; [apply confinedPass_tell|]. intros _.
  apply confinedPass_tell.
Qed.

Lemma confinedPass_pushItem env this item :
  confinedPass (tableName this) (pushItem env this item).
Proof.
  apply confinedPass_tryCatch; [|intros e; apply confinedPass_handler].
  apply confinedPass_bind.
  - unfold pushWrite. destruct (truthy _).
    + apply confinedPass_bind;
        [apply confinedPass_liftW, confined_updateRemote|].
      intros _. apply confinedPass_tell.
    + apply confinedPass_bind; [apply confinedPass_liftW, confined_saveRemote|].
      intros [ri|]; [|apply confinedPass_ret].
      apply confinedPass_bind; [apply confinedPass_liftW, confined_updateLocal|].
      intros _. apply confinedPass_tell.
  - intros _. apply confinedPass_bind;
      [apply confinedPass_liftW, confined_getCurrentTimestamp|].
    intros ts. apply confinedPass_bind;
      [apply confinedPass_liftW, confined_updateLocal|].
    intros _. apply confinedPass_ret.
Qed.

Lemma confinedPass_pullItem env this remoteItem :
  confinedPass (tableName this) (pullItem env this remoteItem).
Proof.
  apply confinedPass_tryCatch; [|intros e; apply confinedPass_handler].
  apply confinedPass_bind.
  { apply confinedPass_liftW. apply confined_bind; [apply confined_select|].
    intros r. apply confined_ret. }
  intros [li|].
  - destruct (hasConflict env li remoteItem); [apply confinedPass_tell|].
    apply confinedPass_bind; [apply confinedPass_liftW, confined_updateLocal|].
    intros _. apply confinedPass_tell.
  - apply confinedPass_bind; [apply confinedPass_liftW, confined_generateId|].
    intros id. apply confinedPass_bind;
      [apply confinedPass_liftW, confined_saveLocal|].
    intros _. apply confinedPass_tell.
Qed.

Lemma confinedPass_syncPass env this :
  confinedPass (tableName this) (syncPass env this).
Proof.
  apply confinedPass_tryCatch.
  - apply confinedPass_bind; [apply confinedPass_liftW, confined_select|].
    intros localChanges. apply confinedPass_bind;
      [apply confinedPass_forEach; intros x; apply confinedPass_pushItem|].
    intros _. apply confinedPass_bind;
      [apply confinedPass_liftW, confined_getRemoteChanges|].
    intros [items|truthy]; [|apply confinedPass_throw].
    apply confinedPass_forEach. intros [remoteItem|];
      [apply confinedPass_pullItem|apply confinedPass_throw].
  - intros e. apply confinedPass_bind; [apply confinedPass_tell|].
    intros _. apply confinedPass_tell.
Qed.

(** X19: a repository writes to its own table only.  Whatever the
    collaborators answer, and whether the operation completes or raises,
    [saveLocal], [updateLocal], [deleteLocal] and a whole [syncWithRemote]
    leave the rows of every other table and the persisted configuration as
    they were. *)
Theorem repository_confined_to_its_table env this w other :
  other <> tableName this ->
  (forall data,
      table other (saveLocal env this data w).2 = table other w
      /\ app_config (saveLocal env this data w).2 = app_config w)
  /\ (forall id data,
        table other (updateLocal env this id data w).2 = table other w
        /\ app_config (updateLocal env this id data w).2 = app_config w)
  /\ (forall id,
        table other (deleteLocal env this id w).2 = table other w
        /\ app_config (deleteLocal env this id w).2 = app_config w)
  /\ table other (syncWithRemote env this w).2 = table other w
  /\ app_config (syncWithRemote env this w).2 = app_config w.
Proof.
  intros Ho.
  split.
  { intros data. destruct (confined_saveLocal env this data w) as (Ha & _ & Hn).
    split; [by apply Hn|done]. }
  split.
  { intros id data.
    destruct (confined_updateLocal env this id data w) as (Ha & _ & Hn).
    split; [by apply Hn|done]. }
  split.
  { intros id. destruct (confined_deleteLocal env this id w) as (Ha & _ & Hn).
    split; [by apply Hn|done]. }
  assert (sameElsewhere (tableName this) w (syncWithRemote env this w).2)
    as (Ha & _ & Hn).
  { unfold syncWithRemote. destruct (negb _ || negb _);
      [apply sameElsewhere_refl|].
    pose proof (confinedPass_syncPass env this (w, emptyResult)) as Hc.
    by destruct (syncPass env this (w, emptyResult)) as [[e|[]] [w' r]]. }
  split; [by apply Hn|done].
Qed.

(** ** The configuration of the manager *)

Lemma initialize_loads env m0 w config :
  storeFault env (tick w) = None ->
  app_config w = Some config ->
  initialize env (m0, w)
  = (inr tt,
     ({| hasDb := true;
         userRepo := Some {| tableName := "users"; remoteConfig := Some config |};
         todoRepo := Some {| tableName := "todos"; remoteConfig := Some config |};
         managerConfig := Some config |},
      next w)).
Proof.
  intros Hok Hc. unfold initialize, bind, modify, loadRemoteConfig.
  cbn [fst snd hasDb negb]. unfold tryCatch, bind, liftD, selectConfig.
  cbn [fst snd]. by rewrite Hok, Hc.
Qed.

(** X20: a configuration that has been saved survives a restart.  After
    [setRemoteConfig] on an initialised manager, the store accepting the
    statement, [initialize] on any manager (a fresh one after a restart)
    reads the configuration back and hands it to the manager and to both
    repositories it creates. *)
Theorem config_survives_restart env mgr w config m0 :
  hasDb mgr = true ->
  storeFault env (tick w) = None ->
  storeFault env (S (tick w)) = None ->
  exists mgr' w',
    setRemoteConfig env config (mgr, w) = (inr tt, (mgr', w'))
    /\ managerConfig mgr' = Some config
    /\ initialize env (m0, w')
       = (inr tt,
          ({| hasDb := true;
              userRepo := Some {| tableName := "users";
                                  remoteConfig := Some config |};
              todoRepo := Some {| tableName := "todos";
                                  remoteConfig := Some config |};
              managerConfig := Some config |},
           next w')).
Proof.
  intros Hdb H0 H1.
  unfold setRemoteConfig, bind, modify, saveRemoteConfig.
  cbn [fst snd hasDb]. rewrite Hdb. cbn [negb].
  unfold tryCatch, liftD, executeConfig. cbn [fst snd]. rewrite H0.
  eexists _, _. split; [reflexivity|]. split; [reflexivity|].
  by apply initialize_loads.
Qed.

(** X21: a save that fails is not rolled back.  When the store rejects
    the statement of [setRemoteConfig], the call still completes, the
    manager and its repositories hold the new configuration, and the
    persisted one is unchanged: [initialize] after a restart reads the
    previous configuration back. *)
Theorem config_save_failure_diverges env mgr w config msg :
  hasDb mgr = true ->
  storeFault env (tick w) = Some msg ->
  exists mgr',
    setRemoteConfig env config (mgr, w) = (inr tt, (mgr', next w))
    /\ managerConfig mgr' = Some config
    /\ userRepo mgr' = withConfig config <$> userRepo mgr
    /\ todoRepo mgr' = withConfig config <$> todoRepo mgr
    /\ app_config (next w) = app_config w
    /\ forall m0 previous,
         app_config w = Some previous ->
         storeFault env (S (tick w)) = None ->
         exists m1 w1,
           initialize env (m0, next w) = (inr tt, (m1, w1))
           /\ managerConfig m1 = Some previous.
Proof.
  intros Hdb Hf.
  unfold setRemoteConfig, bind, modify, saveRemoteConfig.
  cbn [fst snd hasDb]. rewrite Hdb. cbn [negb].
  unfold tryCatch, liftD, executeConfig. cbn [fst snd]. rewrite Hf.
  eexists. split; [reflexivity|]. do 4 (split; [reflexivity|]).
  intros m0 previous Hp Hok. eexists _, _.
  split; [by apply initialize_loads|]. reflexivity.
Qed.

(** X22: a configuration set before [initialize] does not reach the
    repositories.  On a manager that has no store yet, [setRemoteConfig]
    with an enabled configuration followed by [initialize] (nothing being
    persisted) leaves the manager enabled and the two new repositories
    without configuration: [syncAll] then returns, for users and for todos,
    the result of a pass that is not enabled, and no table is touched. *)
Theorem config_before_initialize env mgr w config :
  hasDb mgr = false ->
  app_config w = None ->
  enabled config = true ->
  contentSync (features config) = true ->
  bind (setRemoteConfig env config)
    (fun _ => bind (initialize env) (fun _ => syncAll env)) (mgr, w)
  = (inr (<["todos" := notEnabledResult]> (<["users" := notEnabledResult]> ∅)),
     ({| hasDb := true;
         userRepo := Some {| tableName := "users"; remoteConfig := None |};
         todoRepo := Some {| tableName := "todos"; remoteConfig := None |};
         managerConfig := Some config |},
      next w)).
Proof.
  intros Hdb Hc Hen Hcs.
  unfold bind at 1. unfold setRemoteConfig, bind at 1, modify, saveRemoteConfig.
  cbn [fst snd hasDb]. rewrite Hdb. cbn [negb ret].
  unfold bind at 1. unfold initialize, bind at 1, modify, loadRemoteConfig.
  cbn [fst snd hasDb negb managerConfig].
  unfold tryCatch, bind at 1, liftD, selectConfig. cbn [fst snd].
  assert (forall m,
             managerConfig m = Some config ->
             userRepo m = Some {| tableName := "users"; remoteConfig := None |} ->
             todoRepo m = Some {| tableName := "todos"; remoteConfig := None |} ->
             syncAll env (m, next w)
             = (inr (<["todos" := notEnabledResult]>
                       (<["users" := notEnabledResult]> ∅)),
                (m, next w))) as Hsync.
  { intros m Hm Hur Htr. unfold syncAll. cbn [fst]. rewrite Hm, Hur, Htr.
    cbn [configEnabled configContentSync]. rewrite Hen, Hcs. cbn [andb].
    unfold bind, liftD, syncWithRemote, ret. by cbn. }
  destruct (storeFault env (tick w)); [by apply Hsync|].
  rewrite Hc. by apply Hsync.
Qed.

(** ** Rows are never removed, ids never rewritten *)

Lemma idsKept_refl name w : idsKept name w w.
Proof. exists []. by rewrite app_nil_r. Qed.




















(** ** The queries of the concrete repositories *)

(** X24: [findByEmail] returns a row of the table with that email that is
    not soft-deleted, and nothing exactly when there is none; a null email
    matches no row, not even one whose email is null. *)
Theorem findByEmail_finds env this email w :
  storeFault env (tick w) = None ->
  exists found,
    findByEmail env this email w = (inr found, next w)
    /\ (forall r, found = Some r ->
          r ∈ table (tableName this) w
          /\ sqlEq (r !! "email") email = true
          /\ notDeleted r = true)
    /\ (found = None <->
        forall r, r ∈ table (tableName this) w ->
                  sqlEq (r !! "email") email = true -> notDeleted r = false)
    /\ (sqlValue email = VNull -> found = None).
Proof.
  intros Hok. unfold findByEmail, bind. rewrite select_run by done.
  eexists. split; [reflexivity|]. split; [|split].
  - intros r Hr. apply head_filter_elem in Hr as [Hin Hp].
    apply andb_true_iff in Hp as [He Hd]. by split.
  - split.
    + intros Hnone r Hin He. destruct (notDeleted r) eqn:Hd; [exfalso|done].
      assert (r ∈ List.filter
                (fun r => sqlEq (r !! "email") email && notDeleted r)
                (table (tableName this) w)) as Hf.
      { apply elem_of_list_filter_bool. split; [done|]. by rewrite He, Hd. }
      destruct (List.filter _ _); [by apply elem_of_nil in Hf|done].
    + intros Hall.
      destruct (List.filter _ _) as [|r l] eqn:Hf; [done|]. exfalso.
      assert (r ∈ List.filter
                (fun r => sqlEq (r !! "email") email && notDeleted r)
                (table (tableName this) w)) as Hr by (rewrite Hf; by left).
      apply elem_of_list_filter_bool in Hr as [Hin Hp].
      apply andb_true_iff in Hp as [He Hd]. by rewrite (Hall r Hin He) in Hd.
  - intros Hnull.
    destruct (List.filter _ _) as [|r l] eqn:Hf; [done|]. exfalso.
    assert (r ∈ List.filter
              (fun r => sqlEq (r !! "email") email && notDeleted r)
              (table (tableName this) w)) as Hr by (rewrite Hf; by left).
    apply elem_of_list_filter_bool in Hr as [_ Hp].
    apply andb_true_iff in Hp as [He _]. unfold sqlEq in He. rewrite Hnull in He.
    by destruct (r !! "email") as [[]|].
Qed.

Lemma insertDesc_sorted (gt : Row -> Row -> bool) (D : Row -> Prop) x l :
  (forall a b c, D a -> D b -> D c ->
                 gt b a = false -> gt c b = false -> gt c a = false) ->
  (forall a b, D a -> D b -> gt a b = true -> gt b a = false) ->
  D x -> Forall D l ->
  StronglySorted (fun a b => gt b a = false) l ->
  StronglySorted (fun a b => gt b a = false) (insertDesc gt x l).
Proof.
  intros Htr Has Dx Dl Hs. induction Hs as [|y l Hs IH Hy]; cbn.
  - by repeat constructor.
  - apply Forall_cons in Dl as [Dy Dl].
    destruct (gt y x) eqn:Hyx.
    + constructor; [by apply IH|].
      rewrite insertDesc_Permutation. constructor; [by apply Has|done].
    + constructor; [by constructor|]. constructor; [done|].
      rewrite Forall_forall in Hy, Dl |- *. intros z Hz.
      apply (Htr x y z); auto.
Qed.

Lemma orderByDesc_sorted (gt : Row -> Row -> bool) (D : Row -> Prop) l :
  (forall a b c, D a -> D b -> D c ->
                 gt b a = false -> gt c b = false -> gt c a = false) ->
  (forall a b, D a -> D b -> gt a b = true -> gt b a = false) ->
  Forall D l ->
  StronglySorted (fun a b => gt b a = false) (orderByDesc gt l).
Proof.
  intros Htr Has. induction l as [|x l IH]; intros Dl; [constructor|].
  apply Forall_cons in Dl as [Dx Dl].
  change (orderByDesc gt (x :: l)) with (insertDesc gt x (orderByDesc gt l)).
  apply (insertDesc_sorted gt D); auto.
  by rewrite orderByDesc_Permutation.
Qed.

Lemma byPriorityCreatedAt_keys (a b : Row) pa pb ca cb :
  a !! "priority" = Some (VNum pa) -> a !! "created_at" = Some (VTime ca) ->
  b !! "priority" = Some (VNum pb) -> b !! "created_at" = Some (VTime cb) ->
  byPriorityCreatedAt a b = (pb <? pa) || (negb (pa <? pb) && (cb <? ca)).
Proof.
  intros Hpa Hca Hpb Hcb. unfold byPriorityCreatedAt.
  by rewrite Hpa, Hca, Hpb, Hcb.
Qed.

(** X25: [getByUserId] returns exactly the todos of the user that are not
    soft-deleted (and, when [completed] is given, whose completion is the
    one asked for), each once and without a limit.  When these rows carry a
    number as [priority] and a timestamp as [created_at], a row never comes
    before a row of higher priority, nor before a row of the same priority
    created later. *)
Theorem getByUserId_rows_in_order env this userId completed w :
  storeFault env (tick w) = None ->
  exists listed,
    getByUserId env this userId completed w = (inr listed, next w)
    /\ listed ≡ₚ List.filter (whereUserTodos userId completed)
                   (table (tableName this) w)
    /\ ((forall r, r ∈ table (tableName this) w ->
                   whereUserTodos userId completed r = true ->
                   exists p c, r !! "priority" = Some (VNum p)
                               /\ r !! "created_at" = Some (VTime c)) ->
        forall i j a b pa pb ca cb,
          (i < j)%nat -> listed !! i = Some a -> listed !! j = Some b ->
          a !! "priority" = Some (VNum pa) -> a !! "created_at" = Some (VTime ca) ->
          b !! "priority" = Some (VNum pb) -> b !! "created_at" = Some (VTime cb) ->
          pb < pa \/ (pb = pa /\ cb <= ca)).
Proof.
  intros Hok. eexists. split; [by apply getByUserId_run|].
  split; [apply orderByDesc_Permutation|].
  intros Hkeys i j a b pa pb ca cb Hij Hi Hj Hpa Hca Hpb Hcb.
  assert (StronglySorted (fun a b => byPriorityCreatedAt b a = false)
            (orderByDesc byPriorityCreatedAt
               (List.filter (whereUserTodos userId completed)
                  (table (tableName this) w)))) as Hs.
  { apply (orderByDesc_sorted _
             (fun r => exists p c, r !! "priority" = Some (VNum p)
                                   /\ r !! "created_at" = Some (VTime c))).
    - intros x y z (px & cx & Hpx & Hcx) (py & cy & Hpy & Hcy)
        (pz & cz & Hpz & Hcz).
      rewrite (byPriorityCreatedAt_keys y x py px cy cx),
        (byPriorityCreatedAt_keys z y pz py cz cy),
        (byPriorityCreatedAt_keys z x pz px cz cx) by done.
      rewrite !orb_false_iff, !andb_false_iff, !negb_false_iff, !Z.ltb_ge, !Z.ltb_lt.
      lia.
    - intros x y (px & cx & Hpx & Hcx) (py & cy & Hpy & Hcy).
      rewrite (byPriorityCreatedAt_keys x y px py cx cy),
        (byPriorityCreatedAt_keys y x py px cy cx) by done.
      rewrite orb_true_iff, andb_true_iff, negb_true_iff.
      rewrite !orb_false_iff, !andb_false_iff, !negb_false_iff, !Z.ltb_ge, !Z.ltb_lt.
      lia.
    - apply Forall_forall. intros r [Hr Hp]%elem_of_list_filter_bool.
      by apply Hkeys. }
  pose proof (StronglySorted_lookup _ _ i j a b Hs Hij Hi Hj) as Hab.
  cbn beta in Hab.
  rewrite (byPriorityCreatedAt_keys b a pb pa cb ca) in Hab by done.
  rewrite orb_false_iff, andb_false_iff, negb_false_iff, !Z.ltb_ge, Z.ltb_lt in Hab.
  lia.
Qed.

(** ** Runs of the further properties on the sample data *)

Lemma listLocal_rows_witness :
  exists rows,
    listLocal calmEnv todos buildFilterConditions
      (Some {[ "user_id" := VStr "u1" ]}) (Some 1) None listWorld
    = (inr rows, next listWorld)
    /\ Z.of_nat (length rows) <= 1.
Proof.
  destruct (listLocal_rows calmEnv todos buildFilterConditions
              (Some {[ "user_id" := VStr "u1" ]}) (Some 1) None listWorld eq_refl)
    as (rows & Hrun & _ & Hlen).
  exists rows. split; [exact Hrun|]. apply Hlen. cbn. lia.
Defined.

Lemma listLocal_length_countLocal_witness :
  exists rows,
    countLocal calmEnv todos buildFilterConditions None listWorld
    = (inr 2%nat, next listWorld)
    /\ listLocal calmEnv todos buildFilterConditions None (Some 5) (Some 1)
         (next listWorld)
       = (inr rows, next (next listWorld))
    /\ length rows = 1%nat.
Proof.
  destruct (listLocal_length_countLocal calmEnv todos buildFilterConditions
              None (Some 5) (Some 1) listWorld eq_refl eq_refl)
    as (n & rows & Hc & Hl & Hlen).
  exists rows.
  assert (n = 2%nat) as -> by (vm_compute in Hc; congruence).
  split; [exact Hc|]. split; [exact Hl|]. exact Hlen.
Defined.

Lemma listLocal_pages_witness :
  exists p1 p2,
    listLocal calmEnv todos buildFilterConditions None (Some 1) (Some 0) listWorld
    = (inr p1, next listWorld)
    /\ listLocal calmEnv todos buildFilterConditions None (Some 1) (Some 1)
         (next listWorld)
       = (inr p2, next (next listWorld))
    /\ listLocal calmEnv todos buildFilterConditions None (Some 2) (Some 0) listWorld
       = (inr (p1 ++ p2)%list, next listWorld).
Proof.
  destruct (listLocal_pages calmEnv todos buildFilterConditions None 1 1 0
              listWorld) as (p1 & p2 & p12 & H1 & H2 & H12 & Happ);
    [lia|lia|lia| |reflexivity|reflexivity|].
  { change (NoDup [Some (VTime 300); Some (VTime 500)]).
    apply NoDup_cons. split; [|apply NoDup_singleton].
    intros Hin. apply list_elem_of_singleton in Hin. discriminate. }
  exists p1, p2. split; [exact H1|]. split; [exact H2|].
  rewrite Happ. exact H12.
Defined.

Lemma listWorld_timestamps filter r :
  r ∈ table (tableName todos) listWorld ->
  whereListed buildFilterConditions filter r = true ->
  exists t, r !! "updated_at" = Some (VTime t).
Proof.
  intros Hr _. change (table (tableName todos) listWorld)
    with [rowT1; rowT2; rowT3] in Hr.
  apply elem_of_cons in Hr as [->|Hr]; [by eexists|].
  apply elem_of_cons in Hr as [->|Hr]; [by eexists|].
  apply list_elem_of_singleton in Hr as ->. by eexists.
Defined.

Lemma listLocal_newest_first_witness :
  exists rows,
    listLocal calmEnv todos buildFilterConditions None None None listWorld
    = (inr rows, next listWorld)
    /\ forall a b ta tb,
         rows !! 0%nat = Some a -> rows !! 1%nat = Some b ->
         a !! "updated_at" = Some (VTime ta) ->
         b !! "updated_at" = Some (VTime tb) -> tb <= ta.
Proof.
  destruct (listLocal_newest_first calmEnv todos buildFilterConditions None
              None None listWorld eq_refl (listWorld_timestamps None))
    as (rows & Hrun & Hs).
  exists rows. split; [exact Hrun|].
  intros a b ta tb. apply Hs. lia.
Defined.

Lemma saveLocal_then_countLocal_witness :
  (countLocal calmEnv todos buildFilterConditions
     (Some {[ "title" := VStr "Z" ]}) sampleWorld).1 = inr 0%nat
  /\ (countLocal calmEnv todos buildFilterConditions
        (Some {[ "title" := VStr "Z" ]}) savedWorld).1 = inr 1%nat.
Proof.
  split; [reflexivity|].
  assert (saveLocal calmEnv todos {[ "title" := VStr "Z" ]} sampleWorld
          = (inr savedEntity, savedWorld)) as Hs by reflexivity.
  assert (countLocal calmEnv todos buildFilterConditions
            (Some {[ "title" := VStr "Z" ]}) sampleWorld
          = (inr 0%nat, next sampleWorld)) as Hc by reflexivity.
  destruct (saveLocal_then_countLocal calmEnv todos {[ "title" := VStr "Z" ]}
              {[ "title" := VStr "Z" ]} sampleWorld savedEntity savedWorld
              0%nat (next sampleWorld) Hs Hc eq_refl) as [H _].
  apply H. intros key v Hv _.
  apply lookup_singleton_Some in Hv as [<- <-]. reflexivity.
Defined.

Lemma listLocal_null_filter_witness :
  listLocal calmEnv todos buildFilterConditions
    (Some {[ "title" := VNull ]}) None None listWorld
  = listLocal calmEnv todos buildFilterConditions None None None listWorld.
Proof.
  apply listLocal_null_filter. intros key v Hv.
  apply lookup_singleton_Some in Hv as [_ <-]. reflexivity.
Defined.

Lemma todo_listLocal_ignored_properties_witness :
  listLocal calmEnv todos (todoFilterConditions noLike)
    (Some (<["title" := VStr "Old"]> {[ "user_id" := VStr "" ]})) None None listWorld
  = listLocal calmEnv todos (todoFilterConditions noLike)
      (Some (delete "user_id" {[ "user_id" := VStr "" ]})) None None listWorld.
Proof.
  destruct (todo_listLocal_ignored_properties calmEnv todos noLike
              {[ "user_id" := VStr "" ]} None None listWorld) as [Hk Hu].
  rewrite Hk.
  - apply Hu. reflexivity.
  - intros Hin. repeat (apply elem_of_cons in Hin as [Hin|Hin]; [discriminate|]).
    by apply elem_of_nil in Hin.
Defined.

Lemma saveLocal_then_getLocal_witness :
  saveLocal calmEnv todos {[ "title" := VStr "Z" ]} sampleWorld
  = (inr savedEntity, savedWorld)
  /\ getLocal calmEnv todos (field "id" savedEntity) savedWorld
     = (inr (Some (sqlValue <$> savedEntity)), next savedWorld).
Proof.
  assert (saveLocal calmEnv todos {[ "title" := VStr "Z" ]} sampleWorld
          = (inr savedEntity, savedWorld)) as Hs by reflexivity.
  split; [exact Hs|].
  exact (saveLocal_then_getLocal calmEnv todos {[ "title" := VStr "Z" ]}
           sampleWorld savedEntity savedWorld Hs eq_refl eq_refl).
Defined.

Lemma deleteLocal_is_final_witness :
  exists w1,
    deleteLocal calmEnv todos (VStr "a1") sampleWorld = (inr tt, w1)
    /\ updateLocal calmEnv todos (VStr "a1") {[ "is_deleted" := VBool false ]} w1
       = (inl (NotFound (VStr "a1")), next w1).
Proof.
  destruct (deleteLocal_is_final calmEnv todos (VStr "a1")
              {[ "is_deleted" := VBool false ]} buildFilterConditions None None
              None sampleWorld eq_refl eq_refl) as (w1 & Hd & _ & Hu & _).
  exists w1. split; [exact Hd|exact Hu].
Defined.

Lemma updateLocal_then_getLocal_witness :
  exists u w' stored,
    updateLocal calmEnv todos (VStr "a1") {[ "title" := VStr "Z" ]} sampleWorld
    = (inr u, w')
    /\ getLocal calmEnv todos (VStr "a1") w' = (inr (Some stored), next w')
    /\ u !! "updated_at" = Some (VTime 1001)
    /\ stored !! "updated_at" = Some (VTime 1002).
Proof.
  destruct (updateLocal_then_getLocal calmEnv todos (VStr "a1")
              {[ "title" := VStr "Z" ]} sampleWorld rowA1 eq_refl eq_refl)
    as (u & w' & stored & Hu & Hg & Hua & Hsa & _).
  - exists "title". split; [discriminate|]. by exists (VStr "Z").
  - reflexivity.
  - reflexivity.
  - reflexivity.
  - exists u, w', stored. split; [exact Hu|]. split; [exact Hg|].
    split; [exact Hua|exact Hsa].
Defined.

Lemma markCompleted_then_getByUserId_witness :
  exists row w' listed,
    markCompleted calmEnv todos (VStr "t1") None listWorld = (inr row, w')
    /\ getByUserId calmEnv todos (VStr "u1") (Some (VBool true)) w'
       = (inr listed, next w')
    /\ exists r, r ∈ listed /\ sqlEq (r !! "id") (VStr "t1") = true.
Proof.
  destruct (markCompleted_then_getByUserId calmEnv todos (VStr "t1") None
              (VStr "u1") listWorld rowT1 eq_refl eq_refl eq_refl eq_refl eq_refl)
    as (row & w' & Hm & (listed & Hg & r & Hr & Hid & _) & _).
  exists row, w', listed. split; [exact Hm|]. split; [exact Hg|].
  exists r. split; [exact Hr|exact Hid].
Defined.

Lemma resolveConflict_last_write_wins_witness :
  (exists w',
      resolveConflict calmEnv todos sampleConflict editedWorld = (inr tt, w')
      /\ (fun r => r !! "title") <$> table "todos" w' = [Some (VStr "Y")])
  /\ (exists w',
        resolveConflict calmEnv todos textConflict editedWorld = (inr tt, w')
        /\ (fun r => r !! "title") <$> table "todos" w' = [Some (VStr "Y")]).
Proof.
  split.
  - destruct (resolveConflict_last_write_wins calmEnv todos sampleConflict
                editedWorld) as (_ & H & _).
    destruct (H eq_refl eq_refl) as [Hm _].
    destruct (Hm rowEdited eq_refl) as (w' & Hrun & Ht).
    + exists "title". split; [discriminate|]. by exists (VStr "Y").
    + reflexivity.
    + exists w'. split; [exact Hrun|].
      change (tableName todos) with "todos" in Ht. rewrite Ht. reflexivity.
  - destruct (resolveConflict_last_write_wins calmEnv todos textConflict
                editedWorld) as (_ & H & _).
    destruct (H eq_refl eq_refl) as [Hm _].
    destruct (Hm rowEdited eq_refl) as (w' & Hrun & Ht).
    + exists "title". split; [discriminate|]. by exists (VStr "Y").
    + reflexivity.
    + exists w'. split; [exact Hrun|].
      change (tableName todos) with "todos" in Ht. rewrite Ht. reflexivity.
Defined.

Lemma pushed_record_dirty_again_witness :
  exists w2,
    pushItem calmEnv todos rowDirty (dirtyWorld, emptyResult)
    = (inr tt, (w2, incUpdated emptyResult))
    /\ forall r, r ∈ table "todos" w2 ->
                 sqlEq (r !! "id") (VStr "a1") = true -> whereDirty r = true.
Proof.
  destruct (pushed_record_dirty_again calmEnv todos rowDirty dirtyWorld
              emptyResult (next dirtyWorld) (incUpdated emptyResult) rowDirty
              eq_refl eq_refl eq_refl eq_refl) as (w2 & Hrun & Hrows).
  exists w2. split; [exact Hrun|]. intros r Hr Hid.
  destruct (Hrows r Hr Hid) as (_ & _ & Hd). apply Hd. reflexivity.
Defined.

Lemma merged_record_dirty_witness :
  exists w2,
    pullItem calmEnv todos remoteR9 (syncedWorld, emptyResult)
    = (inr tt, (w2, incUpdated emptyResult))
    /\ forall r, r ∈ table "todos" w2 ->
                 sqlEq (r !! "id") (VStr "a1") = true ->
                 r !! "updated_at" = Some (VTime 1003).
Proof.
  destruct (merged_record_dirty calmEnv todos remoteR9 syncedWorld emptyResult
              rowSynced rowSynced eq_refl eq_refl eq_refl eq_refl eq_refl)
    as (w2 & Hrun & Hrows).
  - exists "title". split; [discriminate|]. by exists (VStr "Y").
  - reflexivity.
  - reflexivity.
  - exists w2. split; [exact Hrun|]. intros r Hr Hid.
    destruct (Hrows r Hr Hid) as (r0 & _ & _ & Hu & _). exact Hu.
Defined.

Lemma failed_listing_reports_success_witness :
  syncWithRemote offlineEnv todos syncedWorld
  = (inr emptyResult, next (next syncedWorld)).
Proof.
  apply failed_listing_reports_success; try reflexivity.
  intros body. discriminate.
Defined.

Lemma push_creates_remote_witness :
  exists w2,
    pushItem calmEnv todos rowNew (dirtyWorld, emptyResult)
    = (inr tt, (w2, incCreated emptyResult))
    /\ length (table "todos" w2) = 2%nat.
Proof.
  destruct (push_creates_remote calmEnv todos rowNew dirtyWorld emptyResult
              remoteR9 rowNew eq_refl eq_refl eq_refl eq_refl eq_refl eq_refl
              eq_refl eq_refl) as (w2 & Hrun & Hlen & _).
  exists w2. split; [exact Hrun|exact Hlen].
Defined.

Lemma pull_creates_local_witness :
  exists w' row,
    pullItem calmEnv todos remoteR9 (sampleWorld, emptyResult)
    = (inr tt, (w', incCreated emptyResult))
    /\ table "todos" w' = [rowA1; row]
    /\ row !! "remote_id" = Some (VStr "r9").
Proof.
  destruct (pull_creates_local calmEnv todos remoteR9 sampleWorld emptyResult
              eq_refl eq_refl) as (w' & row & Hrun & Ht & _ & Hr & _).
  - discriminate.
  - reflexivity.
  - exists w', row. split; [exact Hrun|]. split; [exact Ht|exact Hr].
Defined.

Lemma repository_confined_to_its_table_witness :
  table "users" (syncWithRemote calmEnv todos dirtyWorld).2 = table "users" dirtyWorld.
Proof.
  destruct (repository_confined_to_its_table calmEnv todos dirtyWorld "users")
    as (_ & _ & _ & H & _); [discriminate|exact H].
Defined.

Lemma config_survives_restart_witness :
  exists mgr' w',
    setRemoteConfig calmEnv sampleConfig (readyManager, sampleWorld)
    = (inr tt, (mgr', w'))
    /\ exists m1 w1,
         initialize calmEnv (newManager, w') = (inr tt, (m1, w1))
         /\ managerConfig m1 = Some sampleConfig.
Proof.
  destruct (config_survives_restart calmEnv readyManager sampleWorld sampleConfig
              newManager eq_refl eq_refl eq_refl) as (mgr' & w' & Hs & _ & Hi).
  exists mgr', w'. split; [exact Hs|]. eexists _, _. split; [exact Hi|reflexivity].
Defined.

Lemma config_save_failure_diverges_witness :
  exists mgr',
    setRemoteConfig lockedEnv sampleConfig (readyManager, sampleWorld)
    = (inr tt, (mgr', next sampleWorld))
    /\ managerConfig mgr' = Some sampleConfig
    /\ app_config (next sampleWorld) = None.
Proof.
  destruct (config_save_failure_diverges lockedEnv readyManager sampleWorld
              sampleConfig "database is locked" eq_refl eq_refl)
    as (mgr' & Hs & Hm & _ & _ & Ha & _).
  exists mgr'. split; [exact Hs|]. split; [exact Hm|exact Ha].
Defined.

Lemma config_before_initialize_witness :
  (bind (setRemoteConfig calmEnv sampleConfig)
     (fun _ => bind (initialize calmEnv) (fun _ => syncAll calmEnv))
     (newManager, sampleWorld)).1
  = inr (<["todos" := notEnabledResult]> (<["users" := notEnabledResult]> ∅)).
Proof.
  by rewrite (config_before_initialize calmEnv newManager sampleWorld sampleConfig
                eq_refl eq_refl eq_refl eq_refl).
Defined.


Lemma findByEmail_finds_witness :
  findByEmail calmEnv todos VNull listWorld = (inr None, next listWorld).
Proof.
  destruct (findByEmail_finds calmEnv todos VNull listWorld eq_refl)
    as (found & Hrun & _ & _ & Hnull).
  rewrite Hrun. by rewrite (Hnull eq_refl).
Defined.

Lemma listWorld_keys userId completed r :
  r ∈ table (tableName todos) listWorld ->
  whereUserTodos userId completed r = true ->
  exists p c, r !! "priority" = Some (VNum p) /\ r !! "created_at" = Some (VTime c).
Proof.
  intros Hr _. change (table (tableName todos) listWorld)
    with [rowT1; rowT2; rowT3] in Hr.
  apply elem_of_cons in Hr as [->|Hr]; [by eexists _, _|].
  apply elem_of_cons in Hr as [->|Hr]; [by eexists _, _|].
  apply list_elem_of_singleton in Hr as ->. by eexists _, _.
Defined.

Lemma getByUserId_rows_in_order_witness :
  exists listed,
    getByUserId calmEnv todos (VStr "u1") None listWorld
    = (inr listed, next listWorld)
    /\ forall a b pa pb ca cb,
         listed !! 0%nat = Some a -> listed !! 1%nat = Some b ->
         a !! "priority" = Some (VNum pa) -> a !! "created_at" = Some (VTime ca) ->
         b !! "priority" = Some (VNum pb) -> b !! "created_at" = Some (VTime cb) ->
         pb < pa \/ (pb = pa /\ cb <= ca).
Proof.
  destruct (getByUserId_rows_in_order calmEnv todos (VStr "u1") None listWorld
              eq_refl) as (listed & Hrun & _ & Hord).
  exists listed. split; [exact Hrun|].
  intros a b pa pb ca cb.
  apply (Hord (listWorld_keys (VStr "u1") None) 0%nat 1%nat). lia.
Defined.
